(** * pixcan: the upload handler of [src/lambda/handler.py]

    A shallow embedding of [parse_multipart_form_data] and [lambda_handler]
    and the properties of the multipart extractor and of the staged
    moderation pipeline.

    Python values are modelled as follows.
    - [str] is a list of Unicode code points ([N]); [bytes] is a list of
      [Byte.byte].
    - An exception is a value of [exn]; code that can raise returns a
      [result].
    - The S3 bucket contents, the sequence of service calls and the log are
      fields of an explicit [world] threaded through the handler. *)

From Stdlib Require Import ZArith NArith Strings.Ascii Strings.String Strings.Byte.
From stdpp Require Import strings list gmap.

Local Open Scope Z_scope.

(** ** Python primitives used by the handler *)

Module Py.

Definition str := list N.
Definition bytes := list byte.

(** A [str] literal: the code points of an ASCII Rocq string. *)
Definition lit (s : string) : str :=
  (λ a, N_of_ascii a) <$> list_ascii_of_string s.

(** A [bytes] literal [b'...']. *)
Definition blit (s : string) : bytes := list_byte_of_string s.

#[global] Arguments lit : simpl never.
#[global] Arguments blit : simpl never.

#[global] Instance byte_eq_dec : EqDecision byte := Byte.byte_eq_dec.

Inductive exn :=
| ValueError (msg : str)
| KeyError (key : str)
| IndexError
| UnicodeEncodeError (position : nat)
| ClientError (code : str)      (* botocore: a failed service call *)
| LibraryError (msg : str).     (* any other library exception, e.g. binascii.Error *)

Inductive result (A : Type) :=
| Ok (a : A)
| Raise (e : exn).
Arguments Ok {A} a.
Arguments Raise {A} e.

Definition rbind {A B} (r : result A) (k : A → result B) : result B :=
  match r with
  | Ok a => k a
  | Raise e => Raise e
  end.

Notation "'let*' x := r 'in' k" := (rbind r (λ x, k))
  (at level 10, x name, r at level 100, k at level 200).

Section sequences.
Context {A : Type} `{EqDecision A}.

(** [s.startswith(pre)] *)
Fixpoint startswith (pre s : list A) : bool :=
  match pre, s with
  | [], _ => true
  | _ :: _, [] => false
  | a :: pre', b :: s' => bool_decide (a = b) && startswith pre' s'
  end.

(** [s.endswith(suf)] *)
Definition endswith (suf s : list A) : bool :=
  startswith (reverse suf) (reverse s).

(** [s.find(sub)]: the lowest index at which [sub] occurs, or [-1]. *)
Fixpoint find_from (sub s : list A) (i : Z) : Z :=
  if startswith sub s then i
  else match s with
       | [] => -1
       | _ :: s' => find_from sub s' (i + 1)
       end.

Definition find (sub s : list A) : Z := find_from sub s 0.

(** [sub in s] *)
Definition contains (sub s : list A) : bool := negb (find sub s =? -1).

(** [s[i:]], with Python's reading of a negative index. *)
Definition slice_from (i : Z) (s : list A) : list A :=
  if i <? 0 then drop (Z.to_nat (Z.max 0 (Z.of_nat (length s) + i))) s
  else drop (Z.to_nat i) s.

(** [s[:j]], with Python's reading of a negative index. *)
Definition slice_to (j : Z) (s : list A) : list A :=
  if j <? 0 then take (Z.to_nat (Z.max 0 (Z.of_nat (length s) + j))) s
  else take (Z.to_nat j) s.

(** [s.lstrip(chars)], [s.rstrip(chars)], [s.strip(chars)]: every leading
    (trailing) element in the set [P] is removed. *)
Fixpoint lstrip (P : A → bool) (s : list A) : list A :=
  match s with
  | [] => []
  | c :: s' => if P c then lstrip P s' else s
  end.

Definition rstrip (P : A → bool) (s : list A) : list A :=
  reverse (lstrip P (reverse s)).

Definition strip (P : A → bool) (s : list A) : list A :=
  rstrip P (lstrip P s).

(** [s.split(sep)] for a separator of one element. *)
Fixpoint split_char (sep : A) (s : list A) : list (list A) :=
  match s with
  | [] => [[]]
  | c :: s' =>
      if bool_decide (c = sep) then [] :: split_char sep s'
      else match split_char sep s' with
           | p :: ps => (c :: p) :: ps
           | [] => [[c]]
           end
  end.

(** [s.split(sep, 1)] for a separator of one element. *)
Fixpoint split1_char (sep : A) (s : list A) : list (list A) :=
  match s with
  | [] => [[]]
  | c :: s' =>
      if bool_decide (c = sep) then [[]; s']
      else match split1_char sep s' with
           | p :: ps => (c :: p) :: ps
           | [] => [[c]]
           end
  end.

(** [s.split(sep)] for a separator of any positive length: the pieces
    between the leftmost non-overlapping occurrences of [sep]. Every
    occurrence consumes at least one element, so [length s] rounds are
    enough (lemmas [split_fuel_enough] and [pieces_unfold] below). *)
Fixpoint split_fuel (fuel : nat) (sep s : list A) : list (list A) :=
  match fuel with
  | O => [s]
  | S fuel' =>
      let i := find sep s in
      if i =? -1 then [s]
      else take (Z.to_nat i) s
             :: split_fuel fuel' sep (drop (Z.to_nat i + length sep) s)
  end.

Definition split (s sep : list A) : result (list (list A)) :=
  match sep with
  | [] => Raise (ValueError (lit "empty separator"))
  | _ :: _ => Ok (split_fuel (length s) sep s)
  end.
End sequences.

(** [str.isspace] on one code point (the set CPython's [str.strip()]
    removes). *)
Definition isspace (c : N) : bool :=
  ((9 <=? c) && (c <=? 13) || (28 <=? c) && (c <=? 32)
   || (c =? 133) || (c =? 160) || (c =? 5760)
   || (8192 <=? c) && (c <=? 8202)
   || (c =? 8232) || (c =? 8233) || (c =? 8239) || (c =? 8287)
   || (c =? 12288))%N.

Definition byte_of_N (n : N) : byte := default x00 (Byte.of_N n).

(** The UTF-8 encoding of one code point; lone surrogates and values above
    U+10FFFF have none. *)
Definition utf8_char (c : N) : option bytes :=
  (if c <? 128 then Some [byte_of_N c]
   else if c <? 2048 then
     Some [byte_of_N (N.lor 192 (N.shiftr c 6));
           byte_of_N (N.lor 128 (N.land c 63))]
   else if (55296 <=? c) && (c <=? 57343) then None
   else if c <? 65536 then
     Some [byte_of_N (N.lor 224 (N.shiftr c 12));
           byte_of_N (N.lor 128 (N.land (N.shiftr c 6) 63));
           byte_of_N (N.lor 128 (N.land c 63))]
   else if c <? 1114112 then
     Some [byte_of_N (N.lor 240 (N.shiftr c 18));
           byte_of_N (N.lor 128 (N.land (N.shiftr c 12) 63));
           byte_of_N (N.lor 128 (N.land (N.shiftr c 6) 63));
           byte_of_N (N.lor 128 (N.land c 63))]
   else None)%N.

(** [s.encode()] / [s.encode("utf-8")] *)
Fixpoint encode_from (pos : nat) (s : str) : result bytes :=
  match s with
  | [] => Ok []
  | c :: s' =>
      match utf8_char c with
      | None => Raise (UnicodeEncodeError pos)
      | Some bs => let* rest := encode_from (S pos) s' in Ok (bs ++ rest)
      end
  end.

Definition encode (s : str) : result bytes := encode_from 0 s.

End Py.

Import Py.

(** ** The multipart extractor: [parse_multipart_form_data] *)

Definition semicolon : N := 59.
Definition equals_sign : N := 61.
Definition dquote : N := 34.
Definition is_dquote (c : N) : bool := bool_decide (c = dquote).

Definition CR : byte := x0d.
Definition LF : byte := x0a.
Definition CRLF : bytes := [CR; LF].
Definition CRLFCRLF : bytes := [CR; LF; CR; LF].

(** One entry per [logger] call that the properties below look at. *)
Inductive log_entry :=
| ParseError (e : exn)         (* "Error parsing multipart data: {e}" *)
| Uploading (bucket key : str)
| Uploaded
| ModerationComplete (nsfw : bool) (labels : list str)
| Moved (final_key : str)
| ReceivedEvent
| ProcessingError (e : exn).   (* "Error processing image: {e}" *)

(** Lines 22-27: the [for part in content_type.split(';')] loop, run on the
    list of segments; the value of [boundary] when the loop ends. *)
Fixpoint boundary_loop (segments : list str) : result (option str) :=
  match segments with
  | [] => Ok None
  | part :: rest =>
      let part := strip isspace part in
      if startswith (lit "boundary=") part then
        match split1_char equals_sign part !! 1%nat with
        | Some value => Ok (Some (strip is_dquote value))
        | None => Raise IndexError
        end
      else boundary_loop rest
  end.

(** Lines 36-44 for one part: the payload if the part is selected. *)
Definition part_payload (part : bytes) : option bytes :=
  if contains (blit "Content-Disposition") part
     && contains (blit "filename") part then
    let header_end := find CRLFCRLF part in
    if negb (header_end =? -1) then
      let file_content := slice_from (header_end + 4) part in
      let file_content :=
        if endswith CRLF file_content then slice_to (-2) file_content
        else file_content in
      Some file_content
    else None
  else None.

(** Lines 35-46: the [for part in parts] loop; it returns at the first part
    that yields a payload. *)
Fixpoint scan_parts (parts : list bytes) : option bytes :=
  match parts with
  | [] => None
  | part :: rest =>
      match part_payload part with
      | Some file_content => Some file_content
      | None => scan_parts rest
      end
  end.

(** The index at which [scan_parts] returns. *)
Fixpoint selected_index (parts : list bytes) : option nat :=
  match parts with
  | [] => None
  | part :: rest =>
      match part_payload part with
      | Some _ => Some 0%nat
      | None => S <$> selected_index rest
      end
  end.

Definition no_boundary : exn :=
  ValueError (lit "No boundary found in Content-Type header").

(** Lines 21-46: the body of the [try]. *)
Definition parse_try (body : bytes) (content_type : str)
  : result (option bytes) :=
  let* boundary := boundary_loop (split_char semicolon content_type) in
  match boundary with
  | None | Some [] => Raise no_boundary
  | Some boundary =>
      let* delimiter := encode (lit "--" ++ boundary) in
      let* parts := split body delimiter in
      Ok (scan_parts parts)
  end.

(** Lines 18-49: the whole function. [except Exception] turns every
    exception of the body into a log line and the result [None]. *)
Definition parse_multipart_form_data (body : bytes) (content_type : str)
  : option bytes * list log_entry :=
  match parse_try body content_type with
  | Ok r => (r, [])
  | Raise e => (None, [ParseError e])
  end.

(** ** The collaborators and the world they act on

    The S3 bucket is a finite map from (bucket, key) to objects. A service
    call either fails, raising the exception the fault oracle [fault] gives
    for it and leaving the bucket as it was, or succeeds with its effect:
    [put_object] stores, [copy_object] duplicates an existing object (and
    fails on a missing source), [delete_object] removes. Every call is
    appended to [calls] with its outcome. *)

Record s3_object := { Body : bytes; ContentType : str }.

Record moderation_label := { Name : str; ParentName : str }.

Inductive call :=
| PutObject (bucket key : str) (body : bytes) (content_type : str)
| DetectModerationLabels (bucket name : str) (min_confidence : Z)
| CopyObject (bucket source_bucket source_key key : str)
| DeleteObject (bucket key : str).

Record world := {
  s3 : gmap (str * str) s3_object;
  calls : list (call * bool);
  log : list log_entry
}.

(** What one invocation gets from outside the repository. *)
Record env := {
  BUCKET_NAME : option str;                 (* os.environ.get('BUCKET_NAME') *)
  uuid4 : str;                              (* str(uuid.uuid4()) *)
  b64decode : str → result bytes;           (* base64.b64decode *)
  classifier : bytes → Z → result (list moderation_label);
  fault : call → option exn
}.

Record event := {
  ev_headers : option (gmap str str);       (* None: no 'headers' key *)
  ev_body : option str;                     (* None: no 'body' key *)
  ev_isBase64Encoded : bool
}.

Inductive response_body :=
| Success (file_name : str) (nsfw_detected : bool) (labels : list str)
          (message final_location : str)
| Failure (error : exn) (message : str).   (* 'error' is str(e) of this e *)

Record response := {
  statusCode : Z;
  headers : list (str * str);
  body : response_body
}.

(** State and exceptions. *)
Definition M (A : Type) : Type := world → result A * world.

Definition ret {A} (a : A) : M A := λ w, (Ok a, w).
Definition raise {A} (e : exn) : M A := λ w, (Raise e, w).
Definition lift {A} (r : result A) : M A := λ w, (r, w).
Definition bind {A B} (m : M A) (k : A → M B) : M B := λ w,
  match m w with
  | (Ok a, w') => k a w'
  | (Raise e, w') => (Raise e, w')
  end.

Notation "'let!' x := m 'in' k" := (bind m (λ x, k))
  (at level 10, x name, m at level 100, k at level 200).

Definition with_s3 (f : gmap (str * str) s3_object → gmap (str * str) s3_object)
    (w : world) : world :=
  {| s3 := f (s3 w); calls := calls w; log := log w |}.

Definition called (c : call) (ok : bool) (w : world) : world :=
  {| s3 := s3 w; calls := calls w ++ [(c, ok)]; log := log w |}.

Definition logged (es : list log_entry) (w : world) : world :=
  {| s3 := s3 w; calls := calls w; log := log w ++ es |}.

Definition logger (e : log_entry) : M unit := λ w, (Ok (), logged [e] w).

Definition no_such_key : exn := ClientError (lit "NoSuchKey").
Definition invalid_s3_object : exn := ClientError (lit "InvalidS3ObjectException").

Definition put_object (E : env) (bucket key : str) (data : bytes)
    (content_type : str) : M unit := λ w,
  let c := PutObject bucket key data content_type in
  match fault E c with
  | Some e => (Raise e, called c false w)
  | None =>
      (Ok (), with_s3 <[(bucket, key) :=
                          {| Body := data; ContentType := content_type |}]>
                (called c true w))
  end.

Definition detect_moderation_labels (E : env) (bucket name : str)
    (min_confidence : Z) : M (list moderation_label) := λ w,
  let c := DetectModerationLabels bucket name min_confidence in
  let r := match fault E c with
           | Some e => Raise e
           | None =>
               match s3 w !! (bucket, name) with
               | Some o => classifier E (Body o) min_confidence
               | None => Raise invalid_s3_object
               end
           end in
  match r with
  | Ok labels => (Ok labels, called c true w)
  | Raise e => (Raise e, called c false w)
  end.

Definition copy_object (E : env) (bucket source_bucket source_key key : str)
  : M unit := λ w,
  let c := CopyObject bucket source_bucket source_key key in
  match fault E c with
  | Some e => (Raise e, called c false w)
  | None =>
      match s3 w !! (source_bucket, source_key) with
      | Some o => (Ok (), with_s3 <[(bucket, key) := o]> (called c true w))
      | None => (Raise no_such_key, called c false w)
      end
  end.

Definition delete_object (E : env) (bucket key : str) : M unit := λ w,
  let c := DeleteObject bucket key in
  match fault E c with
  | Some e => (Raise e, called c false w)
  | None => (Ok (), with_s3 (delete (bucket, key)) (called c true w))
  end.

(** ** The pipeline: [lambda_handler] *)

Definition no_bucket_name : exn :=
  ValueError (lit "BUCKET_NAME environment variable not set").
Definition no_content_type : exn :=
  ValueError (lit "Missing Content-Type header").
Definition no_file_found : exn :=
  ValueError (lit "No file found in multipart/form-data payload").

(** Truthiness of a value that is [None] or a [str]. *)
Definition truthy (o : option str) : bool :=
  match o with
  | Some (_ :: _) => true
  | _ => false
  end.

(** [a or b] *)
Definition py_or (a b : option str) : option str :=
  if truthy a then a else b.

(** Lines 56-58. *)
Definition get_bucket_name (E : env) : result str :=
  let bucket_name := BUCKET_NAME E in
  if negb (truthy bucket_name) then Raise no_bucket_name
  else Ok (default [] bucket_name).

(** Lines 61-63. *)
Definition get_content_type (ev : event) : result str :=
  match ev_headers ev with
  | None => Raise (KeyError (lit "headers"))
  | Some h =>
      let content_type :=
        py_or (h !! lit "content-type") (h !! lit "Content-Type") in
      if negb (truthy content_type) then Raise no_content_type
      else Ok (default [] content_type)
  end.

(** Lines 65-69. *)
Definition get_body (E : env) (ev : event) : result bytes :=
  let body := default [] (ev_body ev) in
  if ev_isBase64Encoded ev then b64decode E body else encode body.

(** Line 72: the extractor, its log lines going to the shared logger. *)
Definition extract (body : bytes) (content_type : str) : M (option bytes) :=
  λ w, let '(r, es) := parse_multipart_form_data body content_type in
       (Ok r, logged es w).

Definition partition (nsfw_detected : bool) : str :=
  if nsfw_detected then lit "nsfw" else lit "safe".

Definition success_headers : list (str * str) :=
  [(lit "Content-Type", lit "application/json");
   (lit "Access-Control-Allow-Origin", lit "*");
   (lit "Access-Control-Allow-Headers", lit "Content-Type");
   (lit "Access-Control-Allow-Methods", lit "POST,OPTIONS")].

Definition failure_headers : list (str * str) :=
  [(lit "Content-Type", lit "application/json");
   (lit "Access-Control-Allow-Origin", lit "*")].

(** Lines 77-137: from the generated identifier to the success response. *)
Definition moderate (E : env) (bucket_name : str) (image_data : bytes)
  : M response :=
  let image_id := uuid4 E ++ lit ".jpg" in
  let temp_key := lit "uploads/" ++ image_id in
  let! _ := logger (Uploading bucket_name temp_key) in
  let! _ := put_object E bucket_name temp_key image_data (lit "image/jpeg") in
  let! _ := logger Uploaded in
  let! moderation_labels :=
    detect_moderation_labels E bucket_name temp_key 70 in
  let labels := Name <$> moderation_labels in
  let nsfw_detected := match labels with [] => false | _ :: _ => true end in
  let! _ := logger (ModerationComplete nsfw_detected labels) in
  let final_key := partition nsfw_detected ++ lit "/" ++ image_id in
  let! _ := copy_object E bucket_name bucket_name temp_key final_key in
  let! _ := delete_object E bucket_name temp_key in
  let! _ := logger (Moved final_key) in
  ret {| statusCode := 200;
         headers := success_headers;
         body := Success image_id nsfw_detected labels
                   (lit "Image moved to " ++ partition nsfw_detected
                      ++ lit " folder")
                   final_key |}.

(** Lines 53-137: the body of the [try]. *)
Definition handler_try (E : env) (ev : event) : M response :=
  let! _ := logger ReceivedEvent in
  let! bucket_name := lift (get_bucket_name E) in
  let! content_type := lift (get_content_type ev) in
  let! body := lift (get_body E ev) in
  let! image_data := extract body content_type in
  match image_data with
  | None | Some [] => raise no_file_found      (* [if not image_data] *)
  | Some image_data => moderate E bucket_name image_data
  end.

(** Lines 139-151. *)
Definition failure_response (e : exn) : response :=
  {| statusCode := 500;
     headers := failure_headers;
     body := Failure e (lit "Failed to process image") |}.

(** Lines 51-151. *)
Definition lambda_handler (E : env) (ev : event) (w : world)
  : response * world :=
  match handler_try E ev w with
  | (Ok r, w') => (r, w')
  | (Raise e, w') => (failure_response e, logged [ProcessingError e] w')
  end.

(** ** Notions used in the statements, and sample inputs *)

Section sequence_notions.
Context {A : Type} `{EqDecision A}.
Implicit Types pre sub sep s : list A.

(** [sub] occurs in [s] at offset [n]. *)
Definition occurs_at sub s (n : nat) : Prop :=
  ∃ before after, s = before ++ sub ++ after ∧ length before = n.

(** [sub] occurs somewhere in [s]. *)
Definition occurs_in sub s : Prop := ∃ n, occurs_at sub s n.

(** The offset [s.find(sub)] returns, as a natural number. *)
Fixpoint first_occurrence sub s : option nat :=
  if startswith sub s then Some 0%nat
  else match s with
       | [] => None
       | _ :: s' => S <$> first_occurrence sub s'
       end.

(** The pieces [s.split(sep)] yields for a non-empty [sep]. *)
Definition pieces sep s : list (list A) := split_fuel (length s) sep s.

(** [sep.join(parts)] *)
Fixpoint join sep (parts : list (list A)) : list A :=
  match parts with
  | [] => []
  | [p] => p
  | p :: rest => p ++ sep ++ join sep rest
  end.
End sequence_notions.

(** The segments of the header as the loop of lines 23-27 sees them: split
    on [;] and trimmed. *)
Definition trimmed_segments (content_type : str) : list str :=
  strip isspace <$> split_char semicolon content_type.

(** A part the loop of lines 35-44 returns from: both markers and the
    header/body separator occur in it. *)
Definition file_part (part : bytes) : Prop :=
  occurs_in (blit "Content-Disposition") part
  ∧ occurs_in (blit "filename") part
  ∧ occurs_in CRLFCRLF part.

(** The quoting rule in the spec's words: "stripping one leading and one
    trailing [dquote] character if present". *)
Definition strip_one_quote_each_side (value : str) : str :=
  let value := match value with
               | c :: rest => if is_dquote c then rest else value
               | [] => []
               end in
  match reverse value with
  | c :: rest => if is_dquote c then reverse rest else value
  | [] => []
  end.

(** The header [multipart/form-data; boundary=] followed by [abc] between
    two pairs of double quotes. *)
Definition doubly_quoted_value : str :=
  [dquote; dquote] ++ lit "abc" ++ [dquote; dquote].
Definition doubly_quoted : str :=
  lit "multipart/form-data; boundary=" ++ doubly_quoted_value.

Definition sample_header : str := lit "multipart/form-data; boundary=abc".

Definition sample_part_header : bytes :=
  CRLF ++ blit "Content-Disposition: form-data; name=file; filename=cat.jpg"
       ++ CRLF ++ blit "Content-Type: image/jpeg".

Definition sample_part : bytes :=
  sample_part_header ++ CRLFCRLF ++ blit "JPEGDATA" ++ CRLF.

(** A body with one file part between two delimiters. *)
Definition sample_body : bytes :=
  blit "--abc" ++ sample_part ++ blit "--abc--" ++ CRLF.

(** A body whose only part is a plain form field. *)
Definition field_only_body : bytes :=
  blit "--abc" ++ CRLF ++ blit "Content-Disposition: form-data; name=note"
    ++ CRLFCRLF ++ blit "hello" ++ CRLF ++ blit "--abc--" ++ CRLF.

(** A body that carries text before its first delimiter, and that text
    itself looks like a file part. *)
Definition filler : bytes :=
  blit "Content-Disposition: form-data; name=x; filename=note.txt"
    ++ CRLFCRLF ++ blit "PREAMBLE" ++ CRLF.

Definition filler_body : bytes :=
  filler ++ blit "--abc"
    ++ CRLF ++ blit "Content-Disposition: form-data; name=file; filename=cat.jpg"
    ++ CRLFCRLF ++ blit "JPEGDATA" ++ CRLF ++ blit "--abc--" ++ CRLF.

(** The request passes lines 56-69: the bucket is configured, a content
    type is present and the body decodes to [data]. *)
Definition accepted (E : env) (ev : event)
    (bucket_name content_type : str) (data : bytes) : Prop :=
  get_bucket_name E = Ok bucket_name
  ∧ get_content_type ev = Ok content_type
  ∧ get_body E ev = Ok data.

(** The world after a run that started in [w], changed the bucket to [s],
    made the calls [cs] and logged [ls]. *)
Definition after (w : world) (s : gmap (str * str) s3_object)
    (cs : list (call * bool)) (ls : list log_entry) : world :=
  {| s3 := s; calls := calls w ++ cs; log := log w ++ ls |}.

(** The keys and the object of one invocation. *)
Definition image_id_of (E : env) : str := uuid4 E ++ lit ".jpg".
Definition staged_key (E : env) : str := lit "uploads/" ++ image_id_of E.
Definition final_key_of (E : env) (nsfw : bool) : str :=
  partition nsfw ++ lit "/" ++ image_id_of E.
Definition staged_object (image_data : bytes) : s3_object :=
  {| Body := image_data; ContentType := lit "image/jpeg" |}.

(** The four service calls of one invocation. *)
Definition put_call (E : env) (bucket_name : str) (image_data : bytes) : call :=
  PutObject bucket_name (staged_key E) image_data (lit "image/jpeg").
Definition detect_call (E : env) (bucket_name : str) : call :=
  DetectModerationLabels bucket_name (staged_key E) 70.
Definition copy_call (E : env) (bucket_name : str) (nsfw : bool) : call :=
  CopyObject bucket_name bucket_name (staged_key E) (final_key_of E nsfw).
Definition delete_call (E : env) (bucket_name : str) : call :=
  DeleteObject bucket_name (staged_key E).

(** [nsfw_detected] of lines 100-103. *)
Definition flagged (moderation_labels : list moderation_label) : bool :=
  match Name <$> moderation_labels with
  | [] => false
  | _ :: _ => true
  end.

Definition success_response (E : env)
    (moderation_labels : list moderation_label) : response :=
  {| statusCode := 200;
     headers := success_headers;
     body := Success (image_id_of E) (flagged moderation_labels)
               (Name <$> moderation_labels)
               (lit "Image moved to " ++ partition (flagged moderation_labels)
                  ++ lit " folder")
               (final_key_of E (flagged moderation_labels)) |}.

(** A sample invocation: the bucket is configured, the services do not
    fail and the classifier finds nothing. *)
Definition sample_env : env :=
  {| BUCKET_NAME := Some (lit "images");
     uuid4 := lit "1b4e28ba-2fa1-41d2-883f-0016d3cca427";
     b64decode := λ _, Raise (LibraryError (lit "Incorrect padding"));
     classifier := λ _ _, Ok [];
     fault := λ _, None |}.

Definition empty_world : world := {| s3 := ∅; calls := []; log := [] |}.

(** A request with one header and a body sent as text. *)
Definition text_event (content_type body : str) : event :=
  {| ev_headers := Some {[ lit "content-type" := content_type ]};
     ev_body := Some body;
     ev_isBase64Encoded := false |}.

(** [field_only_body] as the text of a request body. *)
Definition field_only_text : str :=
  lit "--abc" ++ [13; 10]%N ++ lit "Content-Disposition: form-data; name=note"
    ++ [13; 10; 13; 10]%N ++ lit "hello" ++ [13; 10]%N ++ lit "--abc--"
    ++ [13; 10]%N.

(** A file part with nothing between the separator and the CRLF that
    precedes the closing delimiter: an upload of an empty file. *)
Definition empty_file_text : str :=
  lit "--abc" ++ [13; 10]%N
    ++ lit "Content-Disposition: form-data; name=file; filename=empty.jpg"
    ++ [13; 10; 13; 10]%N ++ [13; 10]%N ++ lit "--abc--" ++ [13; 10]%N.

Definition empty_file_body : bytes :=
  blit "--abc" ++ CRLF
    ++ blit "Content-Disposition: form-data; name=file; filename=empty.jpg"
    ++ CRLFCRLF ++ CRLF ++ blit "--abc--" ++ CRLF.

(** The header [multipart/form-data], with no [boundary=] segment. *)
Definition bare_header : str := lit "multipart/form-data".

(** [sample_body] as the text of a request body. *)
Definition sample_text : str :=
  lit "--abc" ++ [13; 10]%N
    ++ lit "Content-Disposition: form-data; name=file; filename=cat.jpg"
    ++ [13; 10]%N ++ lit "Content-Type: image/jpeg" ++ [13; 10; 13; 10]%N
    ++ lit "JPEGDATA" ++ [13; 10]%N ++ lit "--abc--" ++ [13; 10]%N.

(** An invocation in which the classifier reports a label. *)
Definition flagging_env : env :=
  {| BUCKET_NAME := Some (lit "images");
     uuid4 := lit "1b4e28ba-2fa1-41d2-883f-0016d3cca427";
     b64decode := λ _, Raise (LibraryError (lit "Incorrect padding"));
     classifier := λ _ _,
       Ok [{| Name := lit "Explicit Nudity"; ParentName := [] |}];
     fault := λ _, None |}.

(** An invocation in which the copy to the final key is refused. *)
Definition copy_failing_env : env :=
  {| BUCKET_NAME := Some (lit "images");
     uuid4 := lit "1b4e28ba-2fa1-41d2-883f-0016d3cca427";
     b64decode := λ _, Raise (LibraryError (lit "Incorrect padding"));
     classifier := λ _ _, Ok [];
     fault := λ c, match c with
                   | CopyObject _ _ _ _ => Some (ClientError (lit "AccessDenied"))
                   | _ => None
                   end |}.

(** The file part of [empty_file_body] and its header. *)
Definition empty_file_part_header : bytes :=
  CRLF ++ blit "Content-Disposition: form-data; name=file; filename=empty.jpg".

Definition empty_file_part : bytes :=
  empty_file_part_header ++ CRLFCRLF ++ CRLF.

(** A body with two file parts. *)
Definition first_file_part : bytes :=
  CRLF ++ blit "Content-Disposition: form-data; name=a; filename=a.jpg"
    ++ CRLFCRLF ++ blit "FIRST" ++ CRLF.

Definition second_file_part : bytes :=
  CRLF ++ blit "Content-Disposition: form-data; name=b; filename=b.jpg"
    ++ CRLFCRLF ++ blit "SECOND" ++ CRLF.

Definition two_files_body : bytes :=
  blit "--abc" ++ first_file_part ++ blit "--abc" ++ second_file_part
    ++ blit "--abc--" ++ CRLF.

(** A header whose boundary value is nothing but two double quotes. *)
Definition quotes_only_header : str :=
  lit "multipart/form-data; boundary=" ++ [dquote; dquote].

(** A header whose boundary is a lone surrogate, U+D800. *)
Definition surrogate_header : str :=
  lit "multipart/form-data; boundary=" ++ [55296%N].

(** An invocation without bucket configuration. *)
Definition unconfigured_env : env :=
  {| BUCKET_NAME := None;
     uuid4 := lit "1b4e28ba-2fa1-41d2-883f-0016d3cca427";
     b64decode := λ _, Raise (LibraryError (lit "Incorrect padding"));
     classifier := λ _ _, Ok [];
     fault := λ _, None |}.

(** An invocation in which the upload is refused. *)
Definition put_failing_env : env :=
  {| BUCKET_NAME := Some (lit "images");
     uuid4 := lit "1b4e28ba-2fa1-41d2-883f-0016d3cca427";
     b64decode := λ _, Raise (LibraryError (lit "Incorrect padding"));
     classifier := λ _ _, Ok [];
     fault := λ c, match c with
                   | PutObject _ _ _ _ => Some (ClientError (lit "AccessDenied"))
                   | _ => None
                   end |}.

(** An event with no [headers] and no [body] key. *)
Definition bare_event : event :=
  {| ev_headers := None; ev_body := None; ev_isBase64Encoded := false |}.

(** Headers in which the lowercase spelling is present but empty. *)
Definition mixed_headers : gmap str str :=
  {[ lit "content-type" := []; lit "Content-Type" := sample_header ]}.

Definition mixed_event : event :=
  {| ev_headers := Some mixed_headers;
     ev_body := Some sample_text;
     ev_isBase64Encoded := false |}.

(** Headers without a content type. *)
Definition no_content_type_event : event :=
  {| ev_headers := Some {[ lit "accept" := lit "*/*" ]};
     ev_body := Some sample_text;
     ev_isBase64Encoded := false |}.

(** A request flagged as base64 (which [sample_env] does not decode). *)
Definition base64_event : event :=
  {| ev_headers := Some {[ lit "content-type" := sample_header ]};
     ev_body := Some (lit "AAA");
     ev_isBase64Encoded := true |}.

(** A request with a header but no [body] key. *)
Definition no_body_event : event :=
  {| ev_headers := Some {[ lit "content-type" := sample_header ]};
     ev_body := None;
     ev_isBase64Encoded := false |}.

(** A bucket that already holds an object of some other invocation. *)
Definition busy_world : world :=
  {| s3 := {[ (lit "images", lit "safe/other.jpg") :=
                {| Body := blit "OTHER"; ContentType := lit "image/jpeg" |} ]};
     calls := [];
     log := [] |}.

(** Another invocation: the same bucket, another generated identifier. *)
Definition other_env : env :=
  {| BUCKET_NAME := Some (lit "images");
     uuid4 := lit "9f0c1d2e-7a6b-4c3d-8e5f-001122334455";
     b64decode := λ _, Raise (LibraryError (lit "Incorrect padding"));
     classifier := λ _ _, Ok [];
     fault := λ _, None |}.

(** ** Facts about the Python primitives *)

Section sequence_facts.
Context {A : Type} `{EqDecision A}.
Implicit Types pre sub sep s : list A.

Lemma startswith_prefix pre s : startswith pre s = true ↔ pre `prefix_of` s.
Proof.
  revert s. induction pre as [|a pre IH]; intros [|b s]; simpl.
  - split; [intros _; apply prefix_nil | done].
  - split; [intros _; apply prefix_nil | done].
  - split; [done | intros [k Hk]; discriminate Hk].
  - rewrite andb_true_iff, bool_decide_eq_true, IH. split.
    + intros [-> Hp]. by apply prefix_cons.
    + intros [k Hk]. injection Hk as -> ->. split; [done | by exists k].
Qed.

Lemma startswith_app pre s : startswith pre (pre ++ s) = true.
Proof. apply startswith_prefix. by exists s. Qed.

Lemma endswith_suffix suf s : endswith suf s = true ↔ suf `suffix_of` s.
Proof.
  unfold endswith. rewrite startswith_prefix. split.
  - intros [k Hk]. exists (reverse k).
    apply (inj reverse). by rewrite reverse_app, reverse_involutive.
  - intros [k ->]. exists (reverse k). by rewrite reverse_app.
Qed.

Lemma occurs_at_prefix sub s n :
  occurs_at sub s n ↔ (n ≤ length s)%nat ∧ sub `prefix_of` drop n s.
Proof.
  split.
  - intros (b & a & -> & <-). split.
    + rewrite length_app. lia.
    + rewrite drop_app_length. by exists a.
  - intros [Hn [k Hk]]. exists (take n s), k. split.
    + by rewrite <- Hk, take_drop.
    + rewrite length_take. lia.
Qed.

Lemma find_from_first sub s i :
  find_from sub s i =
    match first_occurrence sub s with
    | Some n => i + Z.of_nat n
    | None => -1
    end.
Proof.
  revert i. induction s as [|c s IH]; intros i; simpl.
  - destruct (startswith sub []); simpl; [lia | done].
  - destruct (startswith sub (c :: s)); simpl; [lia |].
    rewrite IH. destruct (first_occurrence sub s); simpl; [lia | done].
Qed.

Lemma find_first sub s :
  find sub s = match first_occurrence sub s with
               | Some n => Z.of_nat n
               | None => -1
               end.
Proof.
  unfold find. rewrite find_from_first.
  by destruct (first_occurrence sub s).
Qed.

Lemma occurs_at_0 sub s : occurs_at sub s 0 ↔ startswith sub s = true.
Proof.
  rewrite occurs_at_prefix, startswith_prefix. simpl.
  split; [tauto | split; [lia | done]].
Qed.

Lemma occurs_at_S sub c s n : occurs_at sub (c :: s) (S n) ↔ occurs_at sub s n.
Proof. rewrite !occurs_at_prefix. simpl. split; intros [? ?]; split; done || lia. Qed.

Lemma first_occurrence_None sub s n :
  first_occurrence sub s = None → ¬ occurs_at sub s n.
Proof.
  revert n. induction s as [|c s IH]; intros n; simpl.
  - destruct (startswith sub []) eqn:Hs; [done |]. intros _ Ho.
    assert (n = 0%nat) as ->.
    { apply occurs_at_prefix in Ho as [Hn _]. simpl in Hn. lia. }
    apply occurs_at_0 in Ho. congruence.
  - destruct (startswith sub (c :: s)) eqn:Hs; [done |].
    destruct (first_occurrence sub s) eqn:Hk; [done |]. intros _ Ho.
    destruct n as [|n].
    + apply occurs_at_0 in Ho. congruence.
    + apply occurs_at_S in Ho. by apply (IH n).
Qed.

Lemma first_occurrence_occurs sub s n :
  first_occurrence sub s = Some n →
  occurs_at sub s n ∧ ∀ m, (m < n)%nat → ¬ occurs_at sub s m.
Proof.
  revert n. induction s as [|c s IH]; intros n; simpl.
  - destruct (startswith sub []) eqn:Hs; [| done]. intros [= <-].
    split; [by apply occurs_at_0 | lia].
  - destruct (startswith sub (c :: s)) eqn:Hs.
    + intros [= <-]. split; [by apply occurs_at_0 | lia].
    + destruct (first_occurrence sub s) as [k|]; [| done].
      intros [= <-]. destruct (IH k eq_refl) as [Hocc Hmin]. split.
      * by apply occurs_at_S.
      * intros [|m] Hm Ho.
        -- apply occurs_at_0 in Ho. congruence.
        -- apply occurs_at_S in Ho. apply (Hmin m); [lia | done].
Qed.

(** [find] returns the offset of the first occurrence. *)
Lemma first_occurrence_Some sub s n :
  first_occurrence sub s = Some n ↔
    occurs_at sub s n ∧ ∀ m, (m < n)%nat → ¬ occurs_at sub s m.
Proof.
  split; [apply first_occurrence_occurs |]. intros [Hocc Hmin].
  destruct (first_occurrence sub s) as [k|] eqn:Hk.
  - apply first_occurrence_occurs in Hk as [Hk Hkmin]. f_equal.
    destruct (Nat.lt_trichotomy k n) as [Hlt|[->|Hgt]]; [| done |].
    + by destruct (Hmin k).
    + by destruct (Hkmin n).
  - by destruct (first_occurrence_None sub s n).
Qed.

Lemma find_Some sub s n :
  find sub s = Z.of_nat n ↔
    occurs_at sub s n ∧ ∀ m, (m < n)%nat → ¬ occurs_at sub s m.
Proof.
  rewrite <- first_occurrence_Some, find_first.
  destruct (first_occurrence sub s) as [k|]; split.
  - intros Hk. f_equal. lia.
  - by intros [= ->].
  - lia.
  - done.
Qed.

Lemma find_None sub s : find sub s = -1 ↔ ¬ occurs_in sub s.
Proof.
  rewrite find_first. destruct (first_occurrence sub s) as [k|] eqn:Hk.
  - split; [lia |]. intros Hno. destruct Hno. exists k.
    by apply first_occurrence_occurs in Hk as [? _].
  - split; [| done]. intros _ [n Hn].
    by destruct (first_occurrence_None sub s n).
Qed.

Lemma find_range sub s : -1 ≤ find sub s ≤ Z.of_nat (length s).
Proof.
  rewrite find_first. destruct (first_occurrence sub s) as [k|] eqn:Hk.
  - apply first_occurrence_occurs in Hk as [Hk _].
    apply occurs_at_prefix in Hk as [? _]. lia.
  - lia.
Qed.

Lemma contains_occurs sub s : contains sub s = true ↔ occurs_in sub s.
Proof.
  unfold contains. rewrite negb_true_iff, Z.eqb_neq, find_None.
  split; [| tauto]. intros Hnn.
  destruct (find sub s) as [|p|p] eqn:Hf.
  - exists 0%nat. by apply (find_Some sub s 0).
  - exists (Pos.to_nat p). apply find_Some. rewrite Hf. lia.
  - pose proof (find_range sub s) as Hr.
    assert (find sub s = -1) as Hm by lia.
    apply find_None in Hm. tauto.
Qed.

#[global] Instance occurs_in_dec sub s : Decision (occurs_in sub s).
Proof.
  refine (cast_if (decide (contains sub s = true)));
    by rewrite <- contains_occurs.
Defined.

(** *** [split] *)

Lemma find_nil_nonempty sep : sep ≠ [] → find sep [] = -1.
Proof. by destruct sep. Qed.

Lemma split_fuel_enough sep s n m :
  sep ≠ [] → (length s ≤ n)%nat → (length s ≤ m)%nat →
  split_fuel n sep s = split_fuel m sep s.
Proof.
  intros Hsep. revert s m. induction n as [|n IH]; intros s m Hn Hm.
  - destruct s; [| simpl in Hn; lia].
    destruct m; simpl; [done |]. by rewrite find_nil_nonempty.
  - destruct m as [|m].
    + destruct s; [| simpl in Hm; lia].
      simpl. by rewrite find_nil_nonempty.
    + simpl. destruct (find sep s =? -1) eqn:Hf; [done |].
      f_equal. destruct sep as [|c sep]; [done |].
      destruct s as [|d s]; [by rewrite find_nil_nonempty in Hf |].
      apply IH; rewrite length_drop; simpl in *; lia.
Qed.

Lemma split_pieces sep s : sep ≠ [] → split s sep = Ok (pieces sep s).
Proof. by destruct sep. Qed.

Lemma split_Ok sep s parts :
  split s sep = Ok parts → sep ≠ [] ∧ parts = pieces sep s.
Proof. destruct sep; [done |]. by intros [= <-]. Qed.

(** The recursion [split] performs: cut at the first occurrence of the
    separator and go on after it. *)
Lemma pieces_unfold sep s :
  sep ≠ [] →
  pieces sep s =
    if find sep s =? -1 then [s]
    else take (Z.to_nat (find sep s)) s
           :: pieces sep (drop (Z.to_nat (find sep s) + length sep) s).
Proof.
  intros Hsep. unfold pieces. destruct s as [|d s].
  - simpl. by rewrite find_nil_nonempty.
  - cbn [length split_fuel]. destruct (find sep (d :: s) =? -1); [done |].
    f_equal. destruct sep as [|c sep]; [done |].
    apply split_fuel_enough; [done | |done].
    rewrite length_drop. simpl. lia.
Qed.

(** The first piece is what precedes the first separator. *)
Lemma pieces_head sep s :
  sep ≠ [] →
  ∃ rest, pieces sep s =
    (if find sep s =? -1 then s else take (Z.to_nat (find sep s)) s) :: rest.
Proof.
  intros Hsep. rewrite pieces_unfold by done.
  destruct (find sep s =? -1); eauto.
Qed.

(** *** [strip] *)

Lemma lstrip_spec (P : A → bool) s :
  ∃ q, s = q ++ lstrip P s ∧ Forall (λ c, P c = true) q
       ∧ ∀ c, head (lstrip P s) = Some c → P c = false.
Proof.
  induction s as [|c s (q & Hq & HP & Hh)]; simpl.
  - by exists [].
  - destruct (P c) eqn:Hc.
    + exists (c :: q). simpl. rewrite <- Hq. by repeat constructor.
    + exists []. split_and!; [done | constructor |].
      intros c' [= <-]. done.
Qed.

Lemma rstrip_spec (P : A → bool) s :
  ∃ q, s = rstrip P s ++ q ∧ Forall (λ c, P c = true) q
       ∧ ∀ c, last (rstrip P s) = Some c → P c = false.
Proof.
  unfold rstrip. destruct (lstrip_spec P (reverse s)) as (q & Hq & HP & Hh).
  exists (reverse q). split_and!.
  - apply (inj reverse). by rewrite reverse_app, !reverse_involutive.
  - by apply Forall_reverse.
  - intros c. rewrite last_reverse. apply Hh.
Qed.

(** [strip] removes a run of [P]-elements at each end, and what is left
    neither begins nor ends with one. *)
Lemma strip_spec (P : A → bool) s :
  ∃ q1 q2, s = q1 ++ strip P s ++ q2
           ∧ Forall (λ c, P c = true) q1 ∧ Forall (λ c, P c = true) q2
           ∧ (∀ c, head (strip P s) = Some c → P c = false)
           ∧ (∀ c, last (strip P s) = Some c → P c = false).
Proof.
  unfold strip. destruct (lstrip_spec P s) as (q1 & H1 & HP1 & Hh).
  destruct (rstrip_spec P (lstrip P s)) as (q2 & H2 & HP2 & Hl).
  exists q1, q2. split_and!; try done.
  - by rewrite <- H2.
  - intros c Hc. apply Hh. rewrite H2.
    destruct (rstrip P (lstrip P s)); [done | by simpl in *].
Qed.
End sequence_facts.

(** ** Facts about the extractor *)

#[global] Instance file_part_dec part : Decision (file_part part).
Proof. unfold file_part. apply _. Defined.

Lemma split1_char_boundary (value : str) :
  split1_char equals_sign (lit "boundary=" ++ value) !! 1%nat = Some value.
Proof. reflexivity. Qed.

Lemma cons_eq_inv {A} (x y : A) (l k : list A) :
  x :: l = y :: k → x = y ∧ l = k.
Proof. by intros [= -> ->]. Qed.

Lemma boundary_loop_found (segs : list str) before value after :
  strip isspace <$> segs = before ++ (lit "boundary=" ++ value) :: after →
  Forall (λ seg, ¬ lit "boundary=" `prefix_of` seg) before →
  boundary_loop segs = Ok (Some (strip is_dquote value)).
Proof.
  revert segs. induction before as [|b before IH]; intros [|seg segs] Heq Hno;
    rewrite ?fmap_nil, ?fmap_cons in Heq; cbn [app] in Heq;
    try discriminate Heq; apply cons_eq_inv in Heq as [Hseg Hrest].
  - cbn [boundary_loop]. rewrite Hseg, startswith_app.
    by rewrite split1_char_boundary.
  - apply Forall_cons in Hno as [Hb Hno]. cbn [boundary_loop].
    destruct (startswith (lit "boundary=") (strip isspace seg)) eqn:Hs.
    + apply startswith_prefix in Hs. by rewrite Hseg in Hs.
    + by apply IH.
Qed.

Lemma boundary_loop_absent (segs : list str) :
  Forall (λ seg, ¬ lit "boundary=" `prefix_of` seg) (strip isspace <$> segs) →
  boundary_loop segs = Ok None.
Proof.
  induction segs as [|seg segs IH]; intros Hno; [done |].
  rewrite fmap_cons in Hno. apply Forall_cons in Hno as [Hseg Hno].
  cbn [boundary_loop].
  destruct (startswith (lit "boundary=") (strip isspace seg)) eqn:Hs.
  - by apply startswith_prefix in Hs.
  - by apply IH.
Qed.

(** The index used at line 26 always exists: the loop never raises. *)
Lemma boundary_loop_total (segs : list str) :
  ∃ boundary, boundary_loop segs = Ok boundary.
Proof.
  induction segs as [|seg segs IH]; [by eexists |]. cbn [boundary_loop].
  destruct (startswith (lit "boundary=") (strip isspace seg)) eqn:Hs; [| done].
  apply startswith_prefix in Hs as [value ->].
  rewrite split1_char_boundary. by eexists.
Qed.

Lemma part_payload_None (part : bytes) :
  part_payload part = None ↔ ¬ file_part part.
Proof.
  unfold part_payload, file_part.
  rewrite <- !contains_occurs.
  destruct (contains (blit "Content-Disposition") part),
    (contains (blit "filename") part); simpl;
    try (split; [intros _ (? & ? & _); congruence | done]).
  unfold contains.
  destruct (negb (find CRLFCRLF part =? -1)); split; try done.
  - intros Hno. destruct Hno. done.
  - intros _ (_ & _ & ?). congruence.
Qed.

Lemma part_payload_Some_file_part (part r : bytes) :
  part_payload part = Some r → file_part part.
Proof.
  intros Hp. destruct (decide (file_part part)) as [|Hno]; [done |].
  apply part_payload_None in Hno. congruence.
Qed.

(** Lines 38-44 on a selected part: the bytes after the first separator,
    less one trailing CRLF. *)
Lemma part_payload_Some (part hdr payload : bytes) :
  occurs_in (blit "Content-Disposition") part →
  occurs_in (blit "filename") part →
  part = hdr ++ CRLFCRLF ++ payload →
  (∀ m, (m < length hdr)%nat → ¬ occurs_at CRLFCRLF part m) →
  ∃ r, part_payload part = Some r
       ∧ (payload = r ++ CRLF ∨ r = payload ∧ ¬ CRLF `suffix_of` payload).
Proof.
  intros Hcd Hfn Hpart Hfirst.
  assert (find CRLFCRLF part = Z.of_nat (length hdr)) as Hfind.
  { apply find_Some. split; [| done]. by exists hdr, payload. }
  unfold part_payload.
  apply contains_occurs in Hcd, Hfn. rewrite Hcd, Hfn, Hfind. simpl.
  assert ((Z.of_nat (length hdr) =? -1) = false) as -> by lia. simpl.
  assert (slice_from (Z.of_nat (length hdr) + 4) part = payload) as ->.
  { unfold slice_from.
    assert ((Z.of_nat (length hdr) + 4 <? 0) = false) as -> by lia.
    replace (Z.to_nat (Z.of_nat (length hdr) + 4))
      with (length hdr + 4)%nat by lia.
    rewrite Hpart, <- drop_drop, drop_app_length. done. }
  destruct (endswith CRLF payload) eqn:He.
  - apply endswith_suffix in He as [r ->]. exists r. split; [| by left].
    f_equal. unfold slice_to. simpl (-2 <? 0).  cbv iota.
    rewrite length_app. simpl (length CRLF).
    replace (Z.to_nat (Z.max 0 (Z.of_nat (length r + 2) + -2)))
      with (length r) by lia.
    by rewrite take_app_length.
  - exists payload. split; [done |]. right. split; [done |].
    intros Hs. apply endswith_suffix in Hs. congruence.
Qed.

Lemma scan_parts_None (parts : list bytes) :
  Forall (λ q, ¬ file_part q) parts → scan_parts parts = None.
Proof.
  induction 1 as [|q parts Hq _ IH]; [done |]. simpl.
  apply part_payload_None in Hq. by rewrite Hq.
Qed.

Lemma scan_parts_skip (before rest : list bytes) :
  Forall (λ q, ¬ file_part q) before →
  scan_parts (before ++ rest) = scan_parts rest.
Proof.
  induction 1 as [|q before Hq _ IH]; [done |]. simpl.
  apply part_payload_None in Hq. by rewrite Hq.
Qed.

(** [scan_parts] returns the payload of the part at [selected_index]. *)
Lemma scan_parts_selected (parts : list bytes) :
  scan_parts parts = i ← selected_index parts; part ← parts !! i; part_payload part.
Proof.
  induction parts as [|q parts IH]; [done |]. simpl.
  destruct (part_payload q) eqn:Hq; simpl; [done |].
  rewrite IH. by destruct (selected_index parts).
Qed.

Lemma selected_index_first (parts : list bytes) (i : nat) :
  selected_index parts = Some i ↔
    (∃ part, parts !! i = Some part ∧ file_part part)
    ∧ ∀ j q, (j < i)%nat → parts !! j = Some q → ¬ file_part q.
Proof.
  revert i. induction parts as [|p parts IH]; intros i; simpl.
  - split; [done |]. by intros [(? & ? & _) _].
  - destruct (part_payload p) as [r|] eqn:Hp.
    + apply part_payload_Some_file_part in Hp. split.
      * intros [= <-]. split; [by exists p |]. lia.
      * intros [_ Hmin]. destruct i as [|i]; [done |].
        by destruct (Hmin 0%nat p); [lia | |].
    + apply part_payload_None in Hp. destruct i as [|i].
      * split; [by destruct (selected_index parts) |].
        by intros [(? & [= <-] & ?) _].
      * rewrite fmap_Some. setoid_rewrite IH. split.
        -- intros (i' & [Hex Hmin] & [= ->]). split; [done |].
           intros [|j] q Hj Hq; [by injection Hq as <- |].
           apply (Hmin j q); [lia | done].
        -- intros [Hex Hmin]. exists i. split; [| done]. split; [done |].
           intros j q Hj Hq. apply (Hmin (S j) q); [lia | done].
Qed.

Lemma encode_delimiter_nonempty (boundary : str) (delimiter : bytes) :
  encode (lit "--" ++ boundary) = Ok delimiter → delimiter ≠ [].
Proof.
  unfold encode. change (lit "--" ++ boundary) with (45%N :: 45%N :: boundary).
  cbn [encode_from]. change (utf8_char 45) with (Some [x2d]).
  destruct (encode_from 2 boundary); simpl; [| done]. by intros [= <-].
Qed.

(** Lines 21-46 once the header has given a boundary token. *)
Lemma parse_try_parts (body : bytes) (content_type boundary : str)
    (delimiter : bytes) (parts : list bytes) :
  boundary_loop (split_char semicolon content_type) = Ok (Some boundary) →
  boundary ≠ [] →
  encode (lit "--" ++ boundary) = Ok delimiter →
  split body delimiter = Ok parts →
  parse_try body content_type = Ok (scan_parts parts).
Proof.
  intros Hb Hne Hd Hs. unfold parse_try. rewrite Hb. cbn [rbind].
  destruct boundary as [|c boundary]; [done |].
  rewrite Hd. cbn [rbind]. by rewrite Hs.
Qed.

(** Lines 29-30: without a boundary token the body of the [try] raises
    before it looks at the request body. *)
Lemma parse_try_no_boundary (body : bytes) (content_type : str) :
  boundary_loop (split_char semicolon content_type) = Ok None →
  parse_try body content_type = Raise no_boundary.
Proof. intros Hb. unfold parse_try. by rewrite Hb. Qed.

(** ** The boundary token (C8) *)

(** C8, as stated, fails: when the value after [boundary=] is [abc] between
    two pairs of double quotes, line 26 yields the token [abc], whereas
    removing exactly one quote at each end would leave [abc] between one
    pair of quotes. *)
Lemma boundary_token_not_one_quote :
  trimmed_segments doubly_quoted
    = [lit "multipart/form-data"; lit "boundary=" ++ doubly_quoted_value]
  ∧ boundary_loop (split_char semicolon doubly_quoted) = Ok (Some (lit "abc"))
  ∧ strip_one_quote_each_side doubly_quoted_value
      = [dquote] ++ lit "abc" ++ [dquote]
  ∧ lit "abc" ≠ strip_one_quote_each_side doubly_quoted_value.
Proof. split_and!; [reflexivity .. | discriminate]. Qed.

(** C8 (amended): for every content-type header whose first trimmed segment
    beginning with [boundary=] is [boundary=value], the boundary token is
    [value] with all leading and all trailing double-quote characters
    removed: [value] is the token between two runs of quotes, and the token
    neither begins nor ends with a quote. *)
Theorem boundary_token_strips_all_quotes
    (content_type : str) (before : list str) (value : str) (after : list str) :
  trimmed_segments content_type = before ++ (lit "boundary=" ++ value) :: after →
  Forall (λ seg, ¬ lit "boundary=" `prefix_of` seg) before →
  ∃ token q1 q2,
    boundary_loop (split_char semicolon content_type) = Ok (Some token)
    ∧ value = q1 ++ token ++ q2
    ∧ Forall (λ c, c = dquote) q1 ∧ Forall (λ c, c = dquote) q2
    ∧ head token ≠ Some dquote ∧ last token ≠ Some dquote.
Proof.
  intros Hsegs Hbefore.
  destruct (strip_spec is_dquote value) as (q1 & q2 & Hv & H1 & H2 & Hh & Hl).
  exists (strip is_dquote value), q1, q2. split_and!.
  - by eapply boundary_loop_found.
  - done.
  - eapply Forall_impl; [exact H1 |]. intros c Hc.
    by apply bool_decide_eq_true in Hc.
  - eapply Forall_impl; [exact H2 |]. intros c Hc.
    by apply bool_decide_eq_true in Hc.
  - intros Hc. apply Hh in Hc. done.
  - intros Hc. apply Hl in Hc. done.
Qed.

Lemma boundary_token_strips_all_quotes_witness :
  ∃ token q1 q2,
    boundary_loop (split_char semicolon doubly_quoted) = Ok (Some token)
    ∧ doubly_quoted_value = q1 ++ token ++ q2
    ∧ Forall (λ c, c = dquote) q1 ∧ Forall (λ c, c = dquote) q2
    ∧ head token ≠ Some dquote ∧ last token ≠ Some dquote.
Proof.
  apply (boundary_token_strips_all_quotes doubly_quoted
           [lit "multipart/form-data"] doubly_quoted_value []).
  - reflexivity.
  - constructor; [| constructor]. intros Hp.
    apply startswith_prefix in Hp. vm_compute in Hp. discriminate Hp.
Defined.

(** ** Extraction of the file part (C3, C5, C9) *)

(** C3: for every body that the boundary delimiter splits into parts of
    which exactly one contains both markers and a CRLFCRLF separator,
    [parse_multipart_form_data] returns that part's payload: the bytes after
    the first CRLFCRLF of the part, less one trailing CRLF if there is
    one. *)
Theorem extract_single_file_part
    (body : bytes) (content_type boundary : str) (delimiter : bytes)
    (before : list bytes) (part : bytes) (after : list bytes)
    (hdr payload : bytes) :
  boundary_loop (split_char semicolon content_type) = Ok (Some boundary) →
  boundary ≠ [] →
  encode (lit "--" ++ boundary) = Ok delimiter →
  split body delimiter = Ok (before ++ part :: after) →
  Forall (λ q, ¬ file_part q) (before ++ after) →
  occurs_in (blit "Content-Disposition") part →
  occurs_in (blit "filename") part →
  part = hdr ++ CRLFCRLF ++ payload →
  (∀ m, (m < length hdr)%nat → ¬ occurs_at CRLFCRLF part m) →
  ∃ r, parse_multipart_form_data body content_type = (Some r, [])
       ∧ (payload = r ++ CRLF ∨ r = payload ∧ ¬ CRLF `suffix_of` payload).
Proof.
  intros Hb Hne Hd Hs Hothers Hcd Hfn Hpart Hfirst.
  apply Forall_app in Hothers as [Hbefore _].
  destruct (part_payload_Some part hdr payload Hcd Hfn Hpart Hfirst)
    as (r & Hr & Hshape).
  exists r. split; [| done]. unfold parse_multipart_form_data.
  rewrite (parse_try_parts _ _ _ _ _ Hb Hne Hd Hs).
  rewrite scan_parts_skip by done. simpl. by rewrite Hr.
Qed.

Lemma extract_single_file_part_witness :
  ∃ r, parse_multipart_form_data sample_body sample_header = (Some r, [])
       ∧ (blit "JPEGDATA" ++ CRLF = r ++ CRLF
          ∨ r = blit "JPEGDATA" ++ CRLF
            ∧ ¬ CRLF `suffix_of` blit "JPEGDATA" ++ CRLF).
Proof.
  apply (extract_single_file_part sample_body sample_header (lit "abc")
           (blit "--abc") [[]] sample_part [blit "--" ++ CRLF]
           sample_part_header (blit "JPEGDATA" ++ CRLF)).
  - reflexivity.
  - discriminate.
  - reflexivity.
  - reflexivity.
  - apply (bool_decide_unpack _). vm_compute. exact I.
  - apply (bool_decide_unpack _). vm_compute. exact I.
  - apply (bool_decide_unpack _). vm_compute. exact I.
  - reflexivity.
  - intros m Hm.
    apply (proj1 (find_Some CRLFCRLF sample_part (length sample_part_header)));
      [reflexivity | exact Hm].
Defined.

(** C5: if none of the parts the delimiter splits the body into contains
    both markers together with a CRLFCRLF separator, the extractor returns
    the absence value [None]. *)
Theorem extract_absent_without_file_part (body : bytes) (content_type : str) :
  (∀ boundary delimiter parts,
     boundary_loop (split_char semicolon content_type) = Ok (Some boundary) →
     encode (lit "--" ++ boundary) = Ok delimiter →
     split body delimiter = Ok parts →
     Forall (λ q, ¬ file_part q) parts) →
  (parse_multipart_form_data body content_type).1 = None.
Proof.
  intros Hparts. unfold parse_multipart_form_data, parse_try.
  destruct (boundary_loop (split_char semicolon content_type))
    as [[[|c boundary]|]|e] eqn:Hb; try done.
  cbn [rbind].
  destruct (encode (lit "--" ++ c :: boundary)) as [delimiter|e] eqn:Hd;
    [| done].
  cbn [rbind].
  destruct (split body delimiter) as [parts|e] eqn:Hs; [| done].
  cbn [rbind fst]. apply scan_parts_None. by eapply Hparts.
Qed.

Lemma extract_absent_without_file_part_witness :
  (parse_multipart_form_data field_only_body sample_header).1 = None.
Proof.
  apply (extract_absent_without_file_part field_only_body sample_header).
  intros boundary delimiter parts Hb Hd Hs.
  change (boundary_loop (split_char semicolon sample_header))
    with (@Ok (option str) (Some (lit "abc"))) in Hb.
  injection Hb as <-.
  change (encode (lit "--" ++ lit "abc")) with (Ok (blit "--abc")) in Hd.
  injection Hd as <-.
  apply split_Ok in Hs as [_ ->].
  apply (bool_decide_unpack _). vm_compute. exact I.
Defined.

(** C9, as stated, fails: the loop of line 35 starts at the first element
    of the split. For [filler_body] that element is the text before the
    first delimiter, it is selected, and the result is its payload, not the
    payload of the file part that follows. *)
Lemma filler_selected :
  split filler_body (blit "--abc")
    = Ok [filler;
          CRLF ++ blit "Content-Disposition: form-data; name=file; filename=cat.jpg"
            ++ CRLFCRLF ++ blit "JPEGDATA" ++ CRLF;
          blit "--" ++ CRLF]
  ∧ selected_index (pieces (blit "--abc") filler_body) = Some 0%nat
  ∧ parse_multipart_form_data filler_body sample_header
      = (Some (blit "PREAMBLE"), []).
Proof. split_and!; vm_compute; reflexivity. Qed.

(** C9 (amended): the first element produced by splitting the body on the
    delimiter -- the bytes before the first delimiter -- is selected as the
    target part exactly when it contains both markers and a CRLFCRLF
    separator; when it lacks one of them it is not selected and the result
    is that of the parts after it. *)
Theorem filler_selected_iff_file_part
    (body delimiter : bytes) (parts : list bytes) :
  split body delimiter = Ok parts →
  ∃ first rest,
    parts = first :: rest
    ∧ first = (if find delimiter body =? -1 then body
               else take (Z.to_nat (find delimiter body)) body)
    ∧ (selected_index parts = Some 0%nat ↔ file_part first)
    ∧ (¬ file_part first → scan_parts parts = scan_parts rest).
Proof.
  intros Hs. apply split_Ok in Hs as [Hne ->].
  destruct (pieces_head delimiter body Hne) as [rest Hp].
  eexists _, rest. split_and!; [exact Hp | done | |].
  - rewrite Hp, selected_index_first. split.
    + by intros [(part & [= <-] & Hfile) _].
    + intros Hfile. split; [by eexists | lia].
  - intros Hno. rewrite Hp. simpl. apply part_payload_None in Hno.
    by rewrite Hno.
Qed.

Lemma filler_selected_iff_file_part_witness :
  ∃ first rest,
    pieces (blit "--abc") sample_body = first :: rest
    ∧ first = (if find (blit "--abc") sample_body =? -1 then sample_body
               else take (Z.to_nat (find (blit "--abc") sample_body))
                      sample_body)
    ∧ (selected_index (pieces (blit "--abc") sample_body) = Some 0%nat
       ↔ file_part first)
    ∧ (¬ file_part first →
       scan_parts (pieces (blit "--abc") sample_body) = scan_parts rest).
Proof.
  apply (filler_selected_iff_file_part sample_body (blit "--abc")).
  reflexivity.
Defined.

(** ** Facts about the pipeline *)

Lemma handler_try_eq (E : env) (ev : event) (w : world) :
  handler_try E ev w =
    match get_bucket_name E with
    | Raise e => (Raise e, after w (s3 w) [] [ReceivedEvent])
    | Ok bucket_name =>
        match get_content_type ev with
        | Raise e => (Raise e, after w (s3 w) [] [ReceivedEvent])
        | Ok content_type =>
            match get_body E ev with
            | Raise e => (Raise e, after w (s3 w) [] [ReceivedEvent])
            | Ok data =>
                let '(r, es) := parse_multipart_form_data data content_type in
                let w1 := after w (s3 w) [] (ReceivedEvent :: es) in
                match r with
                | None | Some [] => (Raise no_file_found, w1)
                | Some image_data => moderate E bucket_name image_data w1
                end
            end
        end
    end.
Proof.
  unfold handler_try, bind, logger, lift, extract, raise, logged, after.
  cbn [s3 calls log].
  destruct (get_bucket_name E) as [bucket_name|];
    [| by rewrite app_nil_r].
  destruct (get_content_type ev) as [content_type|];
    [| by rewrite app_nil_r].
  destruct (get_body E ev) as [data|]; [| by rewrite app_nil_r].
  destruct (parse_multipart_form_data data content_type) as [r es].
  cbn [s3 calls log]. rewrite app_nil_r, <- app_assoc.
  by destruct r as [[|]|].
Qed.

(** Lines 77-137, one service call after the other: the outcome of the run
    for each call that can fail. *)
Lemma moderate_eq (E : env) (bucket_name : str) (image_data : bytes)
    (w : world) :
  moderate E bucket_name image_data w =
    let put := put_call E bucket_name image_data in
    let detect := detect_call E bucket_name in
    let del := delete_call E bucket_name in
    let up := Uploading bucket_name (staged_key E) in
    match fault E put with
    | Some e => (Raise e, after w (s3 w) [(put, false)] [up])
    | None =>
        let s1 :=
          <[(bucket_name, staged_key E) := staged_object image_data]> (s3 w) in
        match match fault E detect with
              | Some e => Raise e
              | None => classifier E image_data 70
              end with
        | Raise e =>
            (Raise e, after w s1 [(put, true); (detect, false)] [up; Uploaded])
        | Ok moderation_labels =>
            let nsfw := flagged moderation_labels in
            let copy := copy_call E bucket_name nsfw in
            let done :=
              [up; Uploaded;
               ModerationComplete nsfw (Name <$> moderation_labels)] in
            match fault E copy with
            | Some e =>
                (Raise e,
                 after w s1 [(put, true); (detect, true); (copy, false)] done)
            | None =>
                let s2 :=
                  <[(bucket_name, final_key_of E nsfw) :=
                      staged_object image_data]> s1 in
                match fault E del with
                | Some e =>
                    (Raise e,
                     after w s2
                       [(put, true); (detect, true); (copy, true);
                        (del, false)] done)
                | None =>
                    (Ok (success_response E moderation_labels),
                     after w (delete (bucket_name, staged_key E) s2)
                       [(put, true); (detect, true); (copy, true);
                        (del, true)]
                       (done ++ [Moved (final_key_of E nsfw)]))
                end
            end
        end
    end.
Proof.
  unfold moderate, bind, logger, put_object, detect_moderation_labels,
    copy_object, delete_object, ret, logged, called, with_s3, after.
  cbv zeta. cbn [s3 calls log].
  fold (image_id_of E). fold (staged_key E).
  fold (put_call E bucket_name image_data) (detect_call E bucket_name)
    (delete_call E bucket_name).
  destruct (fault E (put_call E bucket_name image_data)) as [e|]; [done |].
  cbn [s3 calls log]. rewrite lookup_insert_eq. cbn [Body].
  destruct (fault E (detect_call E bucket_name)) as [e|].
  { cbn [s3 calls log]. by rewrite <- !app_assoc. }
  destruct (classifier E image_data 70) as [mods|e].
  2: { cbn [s3 calls log]. by rewrite <- !app_assoc. }
  cbn [s3 calls log]. fold (flagged mods).
  fold (final_key_of E (flagged mods)).
  fold (copy_call E bucket_name (flagged mods)).
  destruct (fault E (copy_call E bucket_name (flagged mods))) as [e|].
  { cbn [s3 calls log]. by rewrite <- !app_assoc. }
  cbn [s3 calls log]. rewrite lookup_insert_eq.
  destruct (fault E (delete_call E bucket_name)) as [e|].
  { cbn [s3 calls log]. by rewrite <- !app_assoc. }
  cbn [s3 calls log]. by rewrite <- !app_assoc.
Qed.

(** A request the handler accepts runs the extractor, and what follows
    depends on its result only. *)
Lemma lambda_handler_accepted (E : env) (ev : event) (w : world)
    (bucket_name content_type : str) (data : bytes) :
  accepted E ev bucket_name content_type data →
  lambda_handler E ev w =
    let '(r, es) := parse_multipart_form_data data content_type in
    match r with
    | None | Some [] =>
        (failure_response no_file_found,
         after w (s3 w) []
           (ReceivedEvent :: es ++ [ProcessingError no_file_found]))
    | Some image_data =>
        match moderate E bucket_name image_data
                (after w (s3 w) [] (ReceivedEvent :: es)) with
        | (Ok r, w') => (r, w')
        | (Raise e, w') =>
            (failure_response e, logged [ProcessingError e] w')
        end
    end.
Proof.
  intros (Hb & Hc & Hd). unfold lambda_handler.
  rewrite handler_try_eq, Hb, Hc, Hd.
  destruct (parse_multipart_form_data data content_type) as [[[|b d]|] es];
    try done; unfold logged, after; cbn [s3 calls log];
    by rewrite <- app_assoc.
Qed.

(** ** No file found (C6, C10) *)

(** C6: for every request in which the extractor returns the absence value,
    the handler answers with the NoFileFound failure and makes no storage
    or classification call. *)
Theorem absent_file_no_calls (E : env) (ev : event) (w : world)
    (bucket_name content_type : str) (data : bytes) :
  accepted E ev bucket_name content_type data →
  (parse_multipart_form_data data content_type).1 = None →
  (lambda_handler E ev w).1 = failure_response no_file_found
  ∧ calls (lambda_handler E ev w).2 = calls w
  ∧ s3 (lambda_handler E ev w).2 = s3 w.
Proof.
  intros Hacc Hnone. rewrite (lambda_handler_accepted _ _ _ _ _ _ Hacc).
  destruct (parse_multipart_form_data data content_type) as [r es].
  simpl in Hnone. subst r. unfold after. cbn [fst snd s3 calls].
  by rewrite app_nil_r.
Qed.

Lemma absent_file_no_calls_witness :
  let ev := text_event sample_header field_only_text in
  (lambda_handler sample_env ev empty_world).1 = failure_response no_file_found
  ∧ calls (lambda_handler sample_env ev empty_world).2 = calls empty_world
  ∧ s3 (lambda_handler sample_env ev empty_world).2 = s3 empty_world.
Proof.
  apply (absent_file_no_calls sample_env
           (text_event sample_header field_only_text) empty_world
           (lit "images") sample_header field_only_body).
  - split_and!; vm_compute; reflexivity.
  - vm_compute. reflexivity.
Defined.

(** C10: when the extracted payload is the empty byte sequence, the handler
    behaves as for an absent file: the NoFileFound failure, and no storage
    or classification call. *)
Theorem empty_file_no_calls (E : env) (ev : event) (w : world)
    (bucket_name content_type : str) (data : bytes) :
  accepted E ev bucket_name content_type data →
  (parse_multipart_form_data data content_type).1 = Some [] →
  (lambda_handler E ev w).1 = failure_response no_file_found
  ∧ calls (lambda_handler E ev w).2 = calls w
  ∧ s3 (lambda_handler E ev w).2 = s3 w.
Proof.
  intros Hacc Hempty. rewrite (lambda_handler_accepted _ _ _ _ _ _ Hacc).
  destruct (parse_multipart_form_data data content_type) as [r es].
  simpl in Hempty. subst r. unfold after. cbn [fst snd s3 calls].
  by rewrite app_nil_r.
Qed.

Lemma empty_file_no_calls_witness :
  let ev := text_event sample_header empty_file_text in
  (lambda_handler sample_env ev empty_world).1 = failure_response no_file_found
  ∧ calls (lambda_handler sample_env ev empty_world).2 = calls empty_world
  ∧ s3 (lambda_handler sample_env ev empty_world).2 = s3 empty_world.
Proof.
  apply (empty_file_no_calls sample_env
           (text_event sample_header empty_file_text) empty_world
           (lit "images") sample_header empty_file_body).
  - split_and!; vm_compute; reflexivity.
  - vm_compute. reflexivity.
Defined.

(** ** A header without boundary (C4) *)

(** C4, as stated, fails: for the header [multipart/form-data] the
    [ValueError] of line 30 is caught at line 47, so the extractor returns
    the absence value [None] (the header problem goes to the log only), and
    the response of the handler carries the NoFileFound error of line 75,
    not an error about the header. *)
Lemma missing_boundary_reported_as_no_file :
  let ev := text_event bare_header field_only_text in
  trimmed_segments bare_header = [lit "multipart/form-data"]
  ∧ parse_multipart_form_data field_only_body bare_header
      = (None, [ParseError no_boundary])
  ∧ body (lambda_handler sample_env ev empty_world).1
      = Failure no_file_found (lit "Failed to process image")
  ∧ no_file_found ≠ no_boundary.
Proof. split_and!; [vm_compute; reflexivity .. | discriminate]. Qed.

(** C4 (amended): for every content-type header with no segment beginning
    with [boundary=], the body of the extractor raises the "No boundary
    found" error without looking at the request body, and the extractor
    itself catches it: it logs the error and returns the absence value. The
    handler then answers with the NoFileFound failure, and makes no storage
    or classification call. *)
Theorem missing_boundary_degrades_to_absent (E : env) (ev : event) (w : world)
    (bucket_name content_type : str) (data : bytes) :
  accepted E ev bucket_name content_type data →
  Forall (λ seg, ¬ lit "boundary=" `prefix_of` seg)
    (trimmed_segments content_type) →
  (∀ any_body : bytes,
     parse_try any_body content_type = Raise no_boundary
     ∧ parse_multipart_form_data any_body content_type
         = (None, [ParseError no_boundary]))
  ∧ (lambda_handler E ev w).1 = failure_response no_file_found
  ∧ calls (lambda_handler E ev w).2 = calls w
  ∧ s3 (lambda_handler E ev w).2 = s3 w
  ∧ log (lambda_handler E ev w).2
      = log w ++ [ReceivedEvent; ParseError no_boundary;
                  ProcessingError no_file_found].
Proof.
  intros Hacc Hno. apply boundary_loop_absent in Hno.
  assert (∀ any_body : bytes,
            parse_try any_body content_type = Raise no_boundary
            ∧ parse_multipart_form_data any_body content_type
                = (None, [ParseError no_boundary])) as Hparse.
  { intros any_body. unfold parse_multipart_form_data.
    by rewrite (parse_try_no_boundary _ _ Hno). }
  split; [exact Hparse |].
  rewrite (lambda_handler_accepted _ _ _ _ _ _ Hacc).
  destruct (Hparse data) as [_ ->]. unfold after. cbn [fst snd s3 calls log].
  by rewrite app_nil_r.
Qed.

Lemma missing_boundary_degrades_to_absent_witness :
  let ev := text_event bare_header field_only_text in
  (∀ any_body : bytes,
     parse_try any_body bare_header = Raise no_boundary
     ∧ parse_multipart_form_data any_body bare_header
         = (None, [ParseError no_boundary]))
  ∧ (lambda_handler sample_env ev empty_world).1
      = failure_response no_file_found
  ∧ calls (lambda_handler sample_env ev empty_world).2 = calls empty_world
  ∧ s3 (lambda_handler sample_env ev empty_world).2 = s3 empty_world
  ∧ log (lambda_handler sample_env ev empty_world).2
      = log empty_world ++ [ReceivedEvent; ParseError no_boundary;
                            ProcessingError no_file_found].
Proof.
  apply (missing_boundary_degrades_to_absent sample_env
           (text_event bare_header field_only_text) empty_world
           (lit "images") bare_header field_only_body).
  - split_and!; vm_compute; reflexivity.
  - constructor; [| constructor]. intros Hp.
    apply startswith_prefix in Hp. vm_compute in Hp. discriminate Hp.
Defined.

(** ** The staged pipeline (C1, C2, C7) *)

Lemma staged_key_ne_final (E : env) (bucket_name : str) (nsfw : bool) :
  (bucket_name, staged_key E) ≠ (bucket_name, final_key_of E nsfw).
Proof. intros [= Hk]. destruct nsfw; vm_compute in Hk; discriminate Hk. Qed.

Lemma final_key_nsfw (E : env) (nsfw : bool) :
  lit "nsfw/" `prefix_of` final_key_of E nsfw ↔ nsfw = true.
Proof.
  destruct nsfw; split; try done.
  - intros _. by exists (image_id_of E).
  - intros Hp. apply startswith_prefix in Hp. vm_compute in Hp. done.
Qed.

Lemma final_key_safe (E : env) (nsfw : bool) :
  lit "safe/" `prefix_of` final_key_of E nsfw ↔ nsfw = false.
Proof.
  destruct nsfw; split; try done.
  - intros Hp. apply startswith_prefix in Hp. vm_compute in Hp. done.
  - intros _. by exists (image_id_of E).
Qed.

(** A run either stops before the first service call, with a failure
    response, or reaches line 77 with a non-empty payload. *)
Lemma lambda_handler_cases (E : env) (ev : event) (w : world) :
  (∃ e ls, lambda_handler E ev w = (failure_response e, after w (s3 w) [] ls))
  ∨ (∃ bucket_name content_type data b d es,
       accepted E ev bucket_name content_type data
       ∧ parse_multipart_form_data data content_type = (Some (b :: d), es)
       ∧ lambda_handler E ev w =
           match moderate E bucket_name (b :: d)
                   (after w (s3 w) [] (ReceivedEvent :: es)) with
           | (Ok r, w') => (r, w')
           | (Raise e, w') =>
               (failure_response e, logged [ProcessingError e] w')
           end).
Proof.
  destruct (get_bucket_name E) as [bucket_name|e] eqn:Hb.
  2: { left. exists e, [ReceivedEvent; ProcessingError e].
       unfold lambda_handler. rewrite handler_try_eq, Hb.
       unfold logged, after. cbn [s3 calls log].
       by rewrite <- app_assoc. }
  destruct (get_content_type ev) as [content_type|e] eqn:Hc.
  2: { left. exists e, [ReceivedEvent; ProcessingError e].
       unfold lambda_handler. rewrite handler_try_eq, Hb, Hc.
       unfold logged, after. cbn [s3 calls log].
       by rewrite <- app_assoc. }
  destruct (get_body E ev) as [data|e] eqn:Hd.
  2: { left. exists e, [ReceivedEvent; ProcessingError e].
       unfold lambda_handler. rewrite handler_try_eq, Hb, Hc, Hd.
       unfold logged, after. cbn [s3 calls log].
       by rewrite <- app_assoc. }
  assert (accepted E ev bucket_name content_type data) as Hacc by done.
  pose proof (lambda_handler_accepted E ev w _ _ _ Hacc) as Hrun.
  destruct (parse_multipart_form_data data content_type)
    as [[[|b d]|] es] eqn:Hp.
  - left. by eexists _, _.
  - right. by exists bucket_name, content_type, data, b, d, es.
  - left. by eexists _, _.
Qed.

(** A run that answers 200 went through all four service calls. *)
Lemma success_inv (E : env) (ev : event) (w : world) :
  statusCode (lambda_handler E ev w).1 = 200 →
  ∃ bucket_name content_type data b d es moderation_labels,
    accepted E ev bucket_name content_type data
    ∧ parse_multipart_form_data data content_type = (Some (b :: d), es)
    ∧ classifier E (b :: d) 70 = Ok moderation_labels
    ∧ (lambda_handler E ev w).1 = success_response E moderation_labels
    ∧ s3 (lambda_handler E ev w).2 =
        delete (bucket_name, staged_key E)
          (<[(bucket_name, final_key_of E (flagged moderation_labels)) :=
               staged_object (b :: d)]>
             (<[(bucket_name, staged_key E) := staged_object (b :: d)]>
                (s3 w))).
Proof.
  destruct (lambda_handler_cases E ev w)
    as [(e & ls & Hrun)
       | (bucket & ct & data & b & d & es & Hacc & Hp & Hrun)];
    rewrite Hrun; [done |].
  rewrite moderate_eq. cbv zeta.
  destruct (fault E (put_call E bucket (b :: d))); [done |].
  destruct (fault E (detect_call E bucket)); [done |].
  destruct (classifier E (b :: d) 70) as [mods|] eqn:Hmods; [| done].
  destruct (fault E (copy_call E bucket (flagged mods))); [done |].
  destruct (fault E (delete_call E bucket)); [done |].
  intros _. by exists bucket, ct, data, b, d, es, mods.
Qed.

(** C1: in every run, a delete of the staged object is attempted only after
    the copy of it to the final key has succeeded; and in every successful
    run the bucket afterwards has no object at the staged key and has, at
    the final key, an object whose bytes are the extracted upload. *)
Theorem delete_only_after_copy (E : env) (ev : event) (w : world) :
  ∃ tr,
    calls (lambda_handler E ev w).2 = calls w ++ tr
    ∧ (∀ (i : nat) bucket_name key ok,
         tr !! i = Some (DeleteObject bucket_name key, ok) →
         ∃ (j : nat) final_key,
           (j < i)%nat
           ∧ tr !! j
               = Some (CopyObject bucket_name bucket_name key final_key, true))
    ∧ (statusCode (lambda_handler E ev w).1 = 200 →
       ∃ bucket_name content_type data payload moderation_labels,
         accepted E ev bucket_name content_type data
         ∧ (parse_multipart_form_data data content_type).1 = Some payload
         ∧ (lambda_handler E ev w).1 = success_response E moderation_labels
         ∧ s3 (lambda_handler E ev w).2 !! (bucket_name, staged_key E) = None
         ∧ s3 (lambda_handler E ev w).2
             !! (bucket_name, final_key_of E (flagged moderation_labels))
             = Some (staged_object payload)).
Proof.
  assert (∃ tr,
    calls (lambda_handler E ev w).2 = calls w ++ tr
    ∧ ∀ (i : nat) bucket_name key ok,
        tr !! i = Some (DeleteObject bucket_name key, ok) →
        ∃ (j : nat) final_key,
          (j < i)%nat
          ∧ tr !! j
              = Some (CopyObject bucket_name bucket_name key final_key, true))
    as (tr & Hcalls & Horder).
  { destruct (lambda_handler_cases E ev w)
      as [(e & ls & Hrun)
         | (bucket & ct & data & b & d & es & Hacc & Hp & Hrun)];
      rewrite Hrun.
    { exists []. split; [done |]. intros i ? ? ? Hi.
      by rewrite lookup_nil in Hi. }
    rewrite moderate_eq. cbv zeta. unfold after, logged.
    destruct (fault E (put_call E bucket (b :: d)));
      [| destruct (fault E (detect_call E bucket));
         [| destruct (classifier E (b :: d) 70) as [mods|];
            [destruct (fault E (copy_call E bucket (flagged mods)));
             [| destruct (fault E (delete_call E bucket))] |]]];
      cbn [fst snd s3 calls log]; rewrite app_nil_r;
      (eexists; split; [reflexivity |]);
      intros [|[|[|[|i]]]] bkt key ok Hi; try discriminate Hi;
      unfold delete_call in Hi; injection Hi as <- <- <-;
      exists 2%nat, (final_key_of E (flagged mods)); (split; [lia | done]). }
  exists tr. split_and!; [done .. |]. intros Hok.
  destruct (success_inv E ev w Hok)
    as (bucket & ct & data & b & d & es & mods & Hacc & Hp & _ & Hr & Hs3).
  exists bucket, ct, data, (b :: d), mods. split_and!; [done | | done | |].
  - by rewrite Hp.
  - rewrite Hs3. apply lookup_delete_eq.
  - rewrite Hs3, lookup_delete_ne by apply staged_key_ne_final.
    apply lookup_insert_eq.
Qed.

(** C2: in every successful run, the flag in the response is true exactly
    when the list of labels the classifier returned for the staged bytes is
    non-empty, and the final key begins with the flagged partition [nsfw/]
    exactly when the flag is true and with the clear partition [safe/]
    exactly when it is false. *)
Theorem partition_iff_labels (E : env) (ev : event) (w : world) :
  statusCode (lambda_handler E ev w).1 = 200 →
  ∃ bucket_name content_type data payload moderation_labels nsfw final_key,
    accepted E ev bucket_name content_type data
    ∧ (parse_multipart_form_data data content_type).1 = Some payload
    ∧ classifier E payload 70 = Ok moderation_labels
    ∧ body (lambda_handler E ev w).1
        = Success (image_id_of E) nsfw (Name <$> moderation_labels)
            (lit "Image moved to " ++ partition nsfw ++ lit " folder")
            final_key
    ∧ (nsfw = true ↔ Name <$> moderation_labels ≠ [])
    ∧ (lit "nsfw/" `prefix_of` final_key ↔ nsfw = true)
    ∧ (lit "safe/" `prefix_of` final_key ↔ nsfw = false).
Proof.
  intros Hok.
  destruct (success_inv E ev w Hok)
    as (bucket & ct & data & b & d & es & mods & Hacc & Hp & Hc & Hr & _).
  exists bucket, ct, data, (b :: d), mods, (flagged mods),
    (final_key_of E (flagged mods)).
  split_and!; [done | by rewrite Hp | done | by rewrite Hr | | |].
  - unfold flagged. by destruct (Name <$> mods).
  - apply final_key_nsfw.
  - apply final_key_safe.
Qed.

Lemma delete_only_after_copy_witness :
  let ev := text_event sample_header sample_text in
  statusCode (lambda_handler sample_env ev empty_world).1 = 200
  ∧ ∃ tr,
      calls (lambda_handler sample_env ev empty_world).2
        = calls empty_world ++ tr
      ∧ (∀ (i : nat) bucket_name key ok,
           tr !! i = Some (DeleteObject bucket_name key, ok) →
           ∃ (j : nat) final_key,
             (j < i)%nat
             ∧ tr !! j
                 = Some (CopyObject bucket_name bucket_name key final_key,
                         true))
      ∧ (statusCode (lambda_handler sample_env ev empty_world).1 = 200 →
         ∃ bucket_name content_type data payload moderation_labels,
           accepted sample_env ev bucket_name content_type data
           ∧ (parse_multipart_form_data data content_type).1 = Some payload
           ∧ (lambda_handler sample_env ev empty_world).1
               = success_response sample_env moderation_labels
           ∧ s3 (lambda_handler sample_env ev empty_world).2
               !! (bucket_name, staged_key sample_env) = None
           ∧ s3 (lambda_handler sample_env ev empty_world).2
               !! (bucket_name,
                   final_key_of sample_env (flagged moderation_labels))
               = Some (staged_object payload)).
Proof.
  split; [vm_compute; reflexivity |].
  apply (delete_only_after_copy sample_env
           (text_event sample_header sample_text) empty_world).
Defined.

Lemma partition_iff_labels_witness :
  let ev := text_event sample_header sample_text in
  ∃ bucket_name content_type data payload moderation_labels nsfw final_key,
    accepted flagging_env ev bucket_name content_type data
    ∧ (parse_multipart_form_data data content_type).1 = Some payload
    ∧ classifier flagging_env payload 70 = Ok moderation_labels
    ∧ body (lambda_handler flagging_env ev empty_world).1
        = Success (image_id_of flagging_env) nsfw (Name <$> moderation_labels)
            (lit "Image moved to " ++ partition nsfw ++ lit " folder")
            final_key
    ∧ (nsfw = true ↔ Name <$> moderation_labels ≠ [])
    ∧ (lit "nsfw/" `prefix_of` final_key ↔ nsfw = true)
    ∧ (lit "safe/" `prefix_of` final_key ↔ nsfw = false).
Proof.
  apply (partition_iff_labels flagging_env
           (text_event sample_header sample_text) empty_world).
  vm_compute. reflexivity.
Defined.

(** C7: when the upload to the staged key succeeds and a later step
    (classification, copy or delete) fails, the handler answers with the
    failure response, the failed call is the last call it makes, no delete
    precedes it, and the staged object is still in the bucket. *)
Theorem failure_after_upload_keeps_staged_object
    (E : env) (ev : event) (w : world)
    (bucket_name content_type : str) (data payload : bytes) :
  accepted E ev bucket_name content_type data →
  (parse_multipart_form_data data content_type).1 = Some payload →
  payload ≠ [] →
  fault E (put_call E bucket_name payload) = None →
  statusCode (lambda_handler E ev w).1 = 500 →
  ∃ e done failed,
    (lambda_handler E ev w).1 = failure_response e
    ∧ calls (lambda_handler E ev w).2
        = calls w ++ (put_call E bucket_name payload, true)
                       :: done ++ [(failed, false)]
    ∧ Forall (λ c, c.2 = true ∧ ∀ b k, c.1 ≠ DeleteObject b k) done
    ∧ (failed = detect_call E bucket_name
       ∨ (∃ nsfw, failed = copy_call E bucket_name nsfw)
       ∨ failed = delete_call E bucket_name)
    ∧ s3 (lambda_handler E ev w).2 !! (bucket_name, staged_key E)
        = Some (staged_object payload).
Proof.
  intros Hacc Hp Hne Hput.
  rewrite (lambda_handler_accepted _ _ _ _ _ _ Hacc).
  destruct (parse_multipart_form_data data content_type) as [r es].
  simpl in Hp. subst r. destruct payload as [|b d]; [done |].
  rewrite moderate_eq. cbv zeta. rewrite Hput. unfold after, logged.
  destruct (fault E (detect_call E bucket_name)) as [e|].
  { cbn [fst snd s3 calls log]. rewrite app_nil_r. intros _.
    exists e, [], (detect_call E bucket_name).
    split_and!; [done | done | constructor | by left |].
    apply lookup_insert_eq. }
  destruct (classifier E (b :: d) 70) as [mods|e].
  2: { cbn [fst snd s3 calls log]. rewrite app_nil_r. intros _.
       exists e, [], (detect_call E bucket_name).
       split_and!; [done | done | constructor | by left |].
       apply lookup_insert_eq. }
  destruct (fault E (copy_call E bucket_name (flagged mods))) as [e|].
  { cbn [fst snd s3 calls log]. rewrite app_nil_r. intros _.
    exists e, [(detect_call E bucket_name, true)],
      (copy_call E bucket_name (flagged mods)).
    split_and!; [done | done | | right; left; by eexists |].
    - by repeat constructor.
    - apply lookup_insert_eq. }
  destruct (fault E (delete_call E bucket_name)) as [e|]; [| done].
  cbn [fst snd s3 calls log]. rewrite app_nil_r. intros _.
  exists e, [(detect_call E bucket_name, true);
             (copy_call E bucket_name (flagged mods), true)],
    (delete_call E bucket_name).
  split_and!; [done | done | | by right; right |].
  - by repeat constructor.
  - rewrite lookup_insert_ne
      by (intros Heq; by apply (staged_key_ne_final E bucket_name (flagged mods))).
    apply lookup_insert_eq.
Qed.

Lemma failure_after_upload_keeps_staged_object_witness :
  let ev := text_event sample_header sample_text in
  let E := copy_failing_env in
  ∃ e done failed,
    (lambda_handler E ev empty_world).1 = failure_response e
    ∧ calls (lambda_handler E ev empty_world).2
        = calls empty_world
            ++ (put_call E (lit "images") (blit "JPEGDATA"), true)
                 :: done ++ [(failed, false)]
    ∧ Forall (λ c, c.2 = true ∧ ∀ b k, c.1 ≠ DeleteObject b k) done
    ∧ (failed = detect_call E (lit "images")
       ∨ (∃ nsfw, failed = copy_call E (lit "images") nsfw)
       ∨ failed = delete_call E (lit "images"))
    ∧ s3 (lambda_handler E ev empty_world).2 !! (lit "images", staged_key E)
        = Some (staged_object (blit "JPEGDATA")).
Proof.
  apply (failure_after_upload_keeps_staged_object copy_failing_env
           (text_event sample_header sample_text) empty_world
           (lit "images") sample_header sample_body (blit "JPEGDATA")).
  - split_and!; vm_compute; reflexivity.
  - vm_compute. reflexivity.
  - discriminate.
  - reflexivity.
  - vm_compute. reflexivity.
Defined.


(** ** Further facts about [split]: no byte is lost, no piece holds a separator *)

Section split_facts.
Context {A : Type} `{EqDecision A}.
Implicit Types sub sep s : list A.

Lemma occurs_in_trans (a b c : list A) :
  occurs_in a b → occurs_in b c → occurs_in a c.
Proof.
  intros (n & x & y & -> & _) (m & u & v & -> & _).
  exists (length (u ++ x)), (u ++ x), (y ++ v).
  split; [| done]. by rewrite <- !app_assoc.
Qed.

Lemma occurs_in_drop (n : nat) s : occurs_in (drop n s) s.
Proof.
  exists (length (take n s)), (take n s), [].
  split; [| done]. by rewrite app_nil_r, take_drop.
Qed.

Lemma occurs_in_take (n : nat) s : occurs_in (take n s) s.
Proof. exists 0%nat, [], (drop n s). split; [| done]. by rewrite take_drop. Qed.

Lemma occurs_in_refl s : occurs_in s s.
Proof. exists 0%nat, [], []. split; [| done]. by rewrite app_nil_r. Qed.

(** One round of [split]: either the separator does not occur, or the
    sequence is cut at its first occurrence. *)
Lemma pieces_cases sep s :
  sep ≠ [] →
  (¬ occurs_in sep s ∧ pieces sep s = [s])
  ∨ (∃ before after,
       s = before ++ sep ++ after
       ∧ ¬ occurs_in sep before
       ∧ pieces sep s = before :: pieces sep after).
Proof.
  intros Hsep. rewrite pieces_unfold by done.
  destruct (find sep s =? -1) eqn:Hf.
  - left. split; [| done]. apply find_None. lia.
  - right. pose proof (find_range sep s) as Hr.
    assert (find sep s = Z.of_nat (Z.to_nat (find sep s))) as Hn by lia.
    apply find_Some in Hn as [(before & after & Hs & Hlen) Hmin].
    exists before, after. split_and!; [done | |].
    + intros (m & a & b & Hb & Hm).
      apply (Hmin m).
      * rewrite <- Hlen, Hb, !length_app.
        destruct sep; [done |]. simpl. lia.
      * exists a, (b ++ sep ++ after). split; [| done].
        rewrite Hs, Hb. by rewrite <- !app_assoc.
    + rewrite <- Hlen. f_equal.
      * rewrite Hs. by rewrite take_app_length.
      * f_equal. rewrite Hs, <- drop_drop, drop_app_length.
        by rewrite drop_app_length.
Qed.

Lemma pieces_ind (P : list A → list (list A) → Prop) sep :
  sep ≠ [] →
  (∀ s, ¬ occurs_in sep s → P s [s]) →
  (∀ before after,
     ¬ occurs_in sep before → P after (pieces sep after) →
     P (before ++ sep ++ after) (before :: pieces sep after)) →
  ∀ s, P s (pieces sep s).
Proof.
  intros Hsep Hlast Hcut s.
  remember (length s) as n eqn:Hn. revert s Hn.
  induction n as [n IH] using lt_wf_ind. intros s ->.
  destruct (pieces_cases sep s Hsep)
    as [[Hno ->] | (before & after & -> & Hno & ->)].
  - by apply Hlast.
  - apply Hcut; [done |]. apply (IH (length after)); [| done].
    rewrite !length_app. destruct sep; [done |]. simpl. lia.
Qed.

Lemma pieces_nonempty sep s : sep ≠ [] → pieces sep s ≠ [].
Proof. intros Hsep. by destruct (pieces_head sep s Hsep) as [rest ->]. Qed.

Lemma join_pieces sep s : sep ≠ [] → join sep (pieces sep s) = s.
Proof.
  intros Hsep. revert s.
  apply (pieces_ind (λ s ps, join sep ps = s) sep Hsep); [done |].
  intros before after _ IH. pose proof (pieces_nonempty sep after Hsep).
  cbn [join]. destruct (pieces sep after); [done |]. by rewrite IH.
Qed.

Lemma pieces_no_separator sep s :
  sep ≠ [] → Forall (λ p, ¬ occurs_in sep p) (pieces sep s).
Proof.
  intros Hsep. revert s.
  apply (pieces_ind (λ s ps, Forall (λ p, ¬ occurs_in sep p) ps) sep Hsep).
  - intros s Hno. by repeat constructor.
  - intros before after Hno IH. by constructor.
Qed.

Lemma pieces_occur sep s :
  sep ≠ [] → Forall (λ p, occurs_in p s) (pieces sep s).
Proof.
  intros Hsep. revert s.
  apply (pieces_ind (λ s ps, Forall (λ p, occurs_in p s) ps) sep Hsep).
  - intros s _. repeat constructor. apply occurs_in_refl.
  - intros before after _ IH. constructor.
    + exists 0%nat, [], (sep ++ after). done.
    + eapply Forall_impl; [exact IH |]. intros p Hp.
      eapply occurs_in_trans; [exact Hp |].
      exists (length (before ++ sep)), (before ++ sep), [].
      split; [| done]. by rewrite app_nil_r, <- app_assoc.
Qed.
End split_facts.

(** ** Further properties of the extractor *)

Lemma parse_Some_inv (body : bytes) (content_type : str) (r : bytes) :
  (parse_multipart_form_data body content_type).1 = Some r →
  ∃ boundary delimiter,
    boundary_loop (split_char semicolon content_type) = Ok (Some boundary)
    ∧ boundary ≠ []
    ∧ encode (lit "--" ++ boundary) = Ok delimiter
    ∧ delimiter ≠ []
    ∧ scan_parts (pieces delimiter body) = Some r.
Proof.
  unfold parse_multipart_form_data, parse_try.
  destruct (boundary_loop (split_char semicolon content_type))
    as [[[|c boundary]|]|e] eqn:Hb; try done.
  cbn [rbind].
  destruct (encode (lit "--" ++ c :: boundary)) as [delimiter|e] eqn:Hd;
    [| done].
  cbn [rbind]. pose proof (encode_delimiter_nonempty _ _ Hd) as Hne.
  rewrite (split_pieces _ _ Hne). cbn [rbind fst]. intros Hr.
  by exists (c :: boundary), delimiter.
Qed.

Lemma scan_parts_Some_elem (parts : list bytes) (r : bytes) :
  scan_parts parts = Some r →
  ∃ part, part ∈ parts ∧ part_payload part = Some r.
Proof.
  induction parts as [|q parts IH]; [done |]. simpl.
  destruct (part_payload q) as [r'|] eqn:Hq.
  - intros [= <-]. exists q. split; [left | done].
  - intros Hr. destruct (IH Hr) as (part & Hin & Hp).
    exists part. split; [by right | done].
Qed.

Lemma part_payload_occurs (part r : bytes) :
  part_payload part = Some r → occurs_in r part.
Proof.
  unfold part_payload.
  destruct (contains (blit "Content-Disposition") part
            && contains (blit "filename") part); [| done].
  destruct (negb (find CRLFCRLF part =? -1)); [| done].
  set (i := find CRLFCRLF part + 4).
  assert (occurs_in (slice_from i part) part) as Hfrom.
  { unfold slice_from. destruct (i <? 0); apply occurs_in_drop. }
  destruct (endswith CRLF (slice_from i part)); intros [= <-]; [| done].
  eapply occurs_in_trans; [| exact Hfrom].
  unfold slice_to. cbv match. apply occurs_in_take.
Qed.

(** Line 33: the parts, rejoined with the delimiter, are the body again,
    and no part contains the delimiter. *)
Theorem split_loses_nothing (body delimiter : bytes) (parts : list bytes) :
  split body delimiter = Ok parts →
  join delimiter parts = body
  ∧ Forall (λ part, ¬ occurs_in delimiter part) parts.
Proof.
  intros Hs. apply split_Ok in Hs as [Hne ->].
  split; [by apply join_pieces | by apply pieces_no_separator].
Qed.

Lemma split_loses_nothing_witness :
  join (blit "--abc") [[]; sample_part; blit "--" ++ CRLF] = sample_body
  ∧ Forall (λ part, ¬ occurs_in (blit "--abc") part)
      [[]; sample_part; blit "--" ++ CRLF].
Proof.
  apply (split_loses_nothing sample_body (blit "--abc")
           [[]; sample_part; blit "--" ++ CRLF]).
  reflexivity.
Defined.

(** Whatever the extractor returns is a contiguous run of bytes of the
    request body, and it does not contain the boundary delimiter. *)
Theorem payload_is_slice_of_body
    (body : bytes) (content_type : str) (r : bytes) :
  (parse_multipart_form_data body content_type).1 = Some r →
  ∃ boundary delimiter,
    boundary_loop (split_char semicolon content_type) = Ok (Some boundary)
    ∧ encode (lit "--" ++ boundary) = Ok delimiter
    ∧ occurs_in r body
    ∧ ¬ occurs_in delimiter r.
Proof.
  intros Hr.
  destruct (parse_Some_inv _ _ _ Hr) as (boundary & delimiter & Hb & _ & Hd & Hne & Hscan).
  destruct (scan_parts_Some_elem _ _ Hscan) as (part & Hin & Hp).
  apply part_payload_occurs in Hp.
  exists boundary, delimiter. split_and!; [done | done | |].
  - eapply occurs_in_trans; [exact Hp |].
    by apply (proj1 (Forall_forall _ _) (pieces_occur delimiter body Hne) part).
  - intros Hocc.
    apply (proj1 (Forall_forall _ _)
             (pieces_no_separator delimiter body Hne) part Hin).
    by eapply occurs_in_trans.
Qed.

Lemma payload_is_slice_of_body_witness :
  ∃ boundary delimiter,
    boundary_loop (split_char semicolon sample_header) = Ok (Some boundary)
    ∧ encode (lit "--" ++ boundary) = Ok delimiter
    ∧ occurs_in (blit "JPEGDATA") sample_body
    ∧ ¬ occurs_in delimiter (blit "JPEGDATA").
Proof.
  apply (payload_is_slice_of_body sample_body sample_header (blit "JPEGDATA")).
  vm_compute. reflexivity.
Defined.

Lemma extracted_needs_markers (body : bytes) (content_type : str) (r : bytes) :
  (parse_multipart_form_data body content_type).1 = Some r →
  occurs_in (blit "Content-Disposition") body
  ∧ occurs_in (blit "filename") body
  ∧ occurs_in CRLFCRLF body.
Proof.
  intros Hr.
  destruct (parse_Some_inv _ _ _ Hr)
    as (boundary & delimiter & _ & _ & _ & Hne & Hscan).
  destruct (scan_parts_Some_elem _ _ Hscan) as (part & Hin & Hp).
  apply part_payload_Some_file_part in Hp as (Hcd & Hfn & Hsep).
  pose proof (proj1 (Forall_forall _ _) (pieces_occur delimiter body Hne)
                part Hin) as Hpart.
  split_and!; by eapply occurs_in_trans.
Qed.

(** A body in which one of the two markers or the CRLFCRLF separator does
    not occur at all -- the empty body for one -- never yields a file,
    whatever the header says. *)
Theorem no_marker_no_file (body : bytes) (content_type : str) :
  ¬ occurs_in (blit "Content-Disposition") body
  ∨ ¬ occurs_in (blit "filename") body
  ∨ ¬ occurs_in CRLFCRLF body →
  (parse_multipart_form_data body content_type).1 = None.
Proof.
  intros Hmissing.
  destruct ((parse_multipart_form_data body content_type).1) as [r|] eqn:Hr;
    [| done]. exfalso.
  destruct (extracted_needs_markers _ _ _ Hr) as (Hcd & Hfn & Hsep).
  by destruct Hmissing as [Hno|[Hno|Hno]].
Qed.

Lemma no_marker_no_file_witness :
  (parse_multipart_form_data [] sample_header).1 = None.
Proof.
  apply (no_marker_no_file [] sample_header).
  left. apply (bool_decide_unpack _). vm_compute. exact I.
Defined.

(** The first file part wins: the parts after it are not looked at, even
    when they are file parts too. *)
Theorem first_file_part_wins
    (body : bytes) (content_type boundary : str) (delimiter : bytes)
    (before : list bytes) (part : bytes) (after : list bytes) :
  boundary_loop (split_char semicolon content_type) = Ok (Some boundary) →
  boundary ≠ [] →
  encode (lit "--" ++ boundary) = Ok delimiter →
  split body delimiter = Ok (before ++ part :: after) →
  Forall (λ q, ¬ file_part q) before →
  file_part part →
  ∃ r, part_payload part = Some r
       ∧ parse_multipart_form_data body content_type = (Some r, []).
Proof.
  intros Hb Hne Hd Hs Hbefore Hfile.
  destruct (part_payload part) as [r|] eqn:Hp.
  2: { by apply part_payload_None in Hp. }
  exists r. split; [done |]. unfold parse_multipart_form_data.
  rewrite (parse_try_parts _ _ _ _ _ Hb Hne Hd Hs).
  rewrite scan_parts_skip by done. simpl. by rewrite Hp.
Qed.

Lemma first_file_part_wins_witness :
  ∃ r, part_payload first_file_part = Some r
       ∧ parse_multipart_form_data two_files_body sample_header = (Some r, []).
Proof.
  apply (first_file_part_wins two_files_body sample_header (lit "abc")
           (blit "--abc") [[]] first_file_part
           [second_file_part; blit "--" ++ CRLF]).
  - reflexivity.
  - discriminate.
  - reflexivity.
  - reflexivity.
  - apply (bool_decide_unpack _). vm_compute. exact I.
  - apply (bool_decide_unpack _). vm_compute. exact I.
Defined.

(** A selected part gives the empty payload exactly when nothing, or only
    one CRLF, follows its first CRLFCRLF. *)
Theorem empty_payload_iff (part hdr payload : bytes) :
  occurs_in (blit "Content-Disposition") part →
  occurs_in (blit "filename") part →
  part = hdr ++ CRLFCRLF ++ payload →
  (∀ m, (m < length hdr)%nat → ¬ occurs_at CRLFCRLF part m) →
  part_payload part = Some [] ↔ payload = [] ∨ payload = CRLF.
Proof.
  intros Hcd Hfn Hpart Hfirst.
  destruct (part_payload_Some part hdr payload Hcd Hfn Hpart Hfirst)
    as (r & -> & Hshape). split.
  - intros [= ->]. destruct Hshape as [-> | [<- _]]; [by right | by left].
  - intros [-> | ->]; f_equal.
    + destruct Hshape as [Hp | [-> _]]; [by destruct r | done].
    + destruct Hshape as [Hp | [_ Hno]].
      * by apply (app_inv_tail CRLF r []).
      * destruct Hno. by exists [].
Qed.

Lemma empty_payload_iff_witness :
  part_payload empty_file_part = Some [] ↔ CRLF = [] ∨ CRLF = CRLF.
Proof.
  apply (empty_payload_iff empty_file_part empty_file_part_header CRLF).
  - apply (bool_decide_unpack _). vm_compute. exact I.
  - apply (bool_decide_unpack _). vm_compute. exact I.
  - reflexivity.
  - intros m Hm.
    apply (proj1 (find_Some CRLFCRLF empty_file_part
                    (length empty_file_part_header)));
      [reflexivity | exact Hm].
Defined.

Lemma lstrip_all {A} (P : A → bool) (s : list A) :
  Forall (λ c, P c = true) s → lstrip P s = [].
Proof. induction 1 as [|c s Hc _ IH]; [done |]. simpl. by rewrite Hc. Qed.

(** Lines 26-30: a boundary value made of double quotes only is stripped to
    the empty token and treated as a missing boundary: the extractor logs
    the "No boundary found" error and returns [None], whatever the body. *)
Theorem quotes_only_boundary_is_missing
    (body : bytes) (content_type : str)
    (before : list str) (value : str) (after : list str) :
  trimmed_segments content_type = before ++ (lit "boundary=" ++ value) :: after →
  Forall (λ seg, ¬ lit "boundary=" `prefix_of` seg) before →
  Forall (λ c, c = dquote) value →
  parse_multipart_form_data body content_type
    = (None, [ParseError no_boundary]).
Proof.
  intros Hsegs Hbefore Hquotes.
  pose proof (boundary_loop_found _ _ _ _ Hsegs Hbefore) as Hb.
  assert (strip is_dquote value = []) as Hstrip.
  { unfold strip. rewrite lstrip_all; [done |].
    eapply Forall_impl; [exact Hquotes |]. intros c ->. done. }
  unfold parse_multipart_form_data, parse_try. by rewrite Hb, Hstrip.
Qed.

Lemma quotes_only_boundary_is_missing_witness :
  parse_multipart_form_data sample_body quotes_only_header
    = (None, [ParseError no_boundary]).
Proof.
  apply (quotes_only_boundary_is_missing sample_body quotes_only_header
           [lit "multipart/form-data"] [dquote; dquote] []).
  - reflexivity.
  - constructor; [| constructor]. intros Hp.
    apply startswith_prefix in Hp. vm_compute in Hp. discriminate Hp.
  - by repeat constructor.
Defined.

Lemma utf8_char_None (c : N) :
  utf8_char c = None ↔ (55296 ≤ c ≤ 57343 ∨ 1114112 ≤ c)%N.
Proof.
  unfold utf8_char.
  destruct (N.ltb_spec c 128); [split; [done | lia] |].
  destruct (N.ltb_spec c 2048); [split; [done | lia] |].
  destruct (N.leb_spec 55296 c), (N.leb_spec c 57343); simpl;
    try (split; [intros _; lia | done]);
    (destruct (N.ltb_spec c 65536); [split; [done | lia] |]);
    (destruct (N.ltb_spec c 1114112); [split; [done | lia] |]);
    (split; [intros _; lia | done]).
Qed.

Lemma encode_from_Raise (pos : nat) (s : str) (e : exn) :
  encode_from pos s = Raise e →
  ∃ (i : nat) c,
    e = UnicodeEncodeError (pos + i) ∧ s !! i = Some c ∧ utf8_char c = None.
Proof.
  revert pos. induction s as [|c s IH]; intros pos; [done |]. simpl.
  destruct (utf8_char c) as [bs|] eqn:Hc.
  - destruct (encode_from (S pos) s) as [rest|e'] eqn:Hrest; [done |].
    simpl. intros [= <-]. destruct (IH _ Hrest) as (i & c' & -> & Hi & Hc').
    exists (S i), c'. split_and!; [f_equal; lia | done | done].
  - intros [= <-]. exists 0%nat, c. split_and!; [f_equal; lia | done | done].
Qed.

(** The body of the [try] raises in two cases only: the header gives no
    boundary token (line 30), or the token holds a code point that UTF-8
    cannot encode (line 33) -- a lone surrogate or a value above U+10FFFF.
    The index of line 26 and the split of line 33 never raise. *)
Theorem parse_try_raises_only (body : bytes) (content_type : str) (e : exn) :
  parse_try body content_type = Raise e →
  e = no_boundary
  ∨ ∃ boundary (i : nat) c,
      boundary_loop (split_char semicolon content_type) = Ok (Some boundary)
      ∧ boundary !! i = Some c
      ∧ (55296 ≤ c ≤ 57343 ∨ 1114112 ≤ c)%N
      ∧ e = UnicodeEncodeError (2 + i).
Proof.
  unfold parse_try.
  destruct (boundary_loop_total (split_char semicolon content_type))
    as [[[|c boundary]|] ->]; cbn [rbind]; try (intros [= <-]; by left).
  destruct (encode (lit "--" ++ c :: boundary)) as [delimiter|e'] eqn:Hd.
  { cbn [rbind]. pose proof (encode_delimiter_nonempty _ _ Hd) as Hne.
    by rewrite (split_pieces _ _ Hne). }
  cbn [rbind]. intros [= <-]. right.
  apply encode_from_Raise in Hd as (i & c' & -> & Hi & Hc').
  apply utf8_char_None in Hc'.
  destruct i as [|[|i]].
  - injection Hi as <-. lia.
  - injection Hi as <-. lia.
  - exists (c :: boundary), i, c'. done.
Qed.

Lemma parse_try_raises_only_witness :
  UnicodeEncodeError 2 = no_boundary
  ∨ ∃ boundary (i : nat) c,
      boundary_loop (split_char semicolon surrogate_header) = Ok (Some boundary)
      ∧ boundary !! i = Some c
      ∧ (55296 ≤ c ≤ 57343 ∨ 1114112 ≤ c)%N
      ∧ UnicodeEncodeError 2 = UnicodeEncodeError (2 + i).
Proof.
  apply (parse_try_raises_only sample_body surrogate_header
           (UnicodeEncodeError 2)).
  reflexivity.
Defined.

(** ** Further properties of the handler *)

Lemma get_bucket_name_Ok (E : env) (bucket_name : str) :
  get_bucket_name E = Ok bucket_name →
  BUCKET_NAME E = Some bucket_name ∧ bucket_name ≠ [].
Proof.
  unfold get_bucket_name. by destruct (BUCKET_NAME E) as [[|c b]|]; intros [= <-].
Qed.

(** Lines 56-58: without a bucket name -- unset or empty -- every event,
    even one without headers or body, gets the configuration error; nothing
    is parsed and no service is called. *)
Theorem missing_bucket_name_fails_first (E : env) (ev : event) (w : world) :
  BUCKET_NAME E = None ∨ BUCKET_NAME E = Some [] →
  lambda_handler E ev w
    = (failure_response no_bucket_name,
       after w (s3 w) [] [ReceivedEvent; ProcessingError no_bucket_name]).
Proof.
  intros Hb. unfold lambda_handler. rewrite handler_try_eq.
  unfold get_bucket_name. destruct Hb as [-> | ->]; cbn [truthy negb];
    unfold logged, after; cbn [s3 calls log]; by rewrite <- app_assoc.
Qed.

Lemma missing_bucket_name_fails_first_witness :
  lambda_handler unconfigured_env bare_event empty_world
    = (failure_response no_bucket_name,
       after empty_world (s3 empty_world) []
         [ReceivedEvent; ProcessingError no_bucket_name]).
Proof.
  apply (missing_bucket_name_fails_first unconfigured_env bare_event
           empty_world).
  left. reflexivity.
Defined.

(** Lines 61-63: the content type is the value of the lowercase header
    [content-type] when that is present and not empty, and otherwise the
    value of [Content-Type]; an empty value counts as missing. *)
Theorem content_type_lookup (ev : event) (h : gmap str str) (ct : str) :
  ev_headers ev = Some h →
  get_content_type ev = Ok ct ↔
    ct ≠ []
    ∧ (h !! lit "content-type" = Some ct
       ∨ (h !! lit "content-type" = None ∨ h !! lit "content-type" = Some [])
         ∧ h !! lit "Content-Type" = Some ct).
Proof.
  intros Hh. unfold get_content_type, py_or. rewrite Hh.
  destruct (h !! lit "content-type") as [[|c l]|] eqn:Hl; cbn [truthy negb].
  - destruct (h !! lit "Content-Type") as [[|c u]|] eqn:Hu;
      cbn [truthy negb default]; split;
      try done; try (intros [Hne [[= <-]|[_ [= <-]]]]; done).
    + intros [= <-]. split; [done |]. right. split; [by right | done].
  - cbn [default]. split.
    + intros [= <-]. split; [done | by left].
    + intros [_ [[= <-]|[[|] _]]]; done.
  - destruct (h !! lit "Content-Type") as [[|c u]|] eqn:Hu;
      cbn [truthy negb default]; split;
      try done; try (intros [Hne [[= <-]|[_ [= <-]]]]; done).
    + intros [= <-]. split; [done |]. right. split; [by left | done].
Qed.

Lemma content_type_lookup_witness :
  get_content_type mixed_event = Ok sample_header ↔
    sample_header ≠ []
    ∧ (mixed_headers !! lit "content-type" = Some sample_header
       ∨ (mixed_headers !! lit "content-type" = None
          ∨ mixed_headers !! lit "content-type" = Some [])
         ∧ mixed_headers !! lit "Content-Type" = Some sample_header).
Proof.
  apply (content_type_lookup mixed_event mixed_headers sample_header).
  reflexivity.
Defined.

(** Lines 61-63: with the bucket configured, an event whose headers hold no
    non-empty content type in either spelling ([truthy] is false of both
    lookups) gets the "Missing Content-Type header" error; the body is not
    decoded and no service is called. *)
Theorem missing_content_type_reported
    (E : env) (ev : event) (w : world) (bucket_name : str) (h : gmap str str) :
  get_bucket_name E = Ok bucket_name →
  ev_headers ev = Some h →
  truthy (h !! lit "content-type") = false →
  truthy (h !! lit "Content-Type") = false →
  lambda_handler E ev w
    = (failure_response no_content_type,
       after w (s3 w) [] [ReceivedEvent; ProcessingError no_content_type]).
Proof.
  intros Hb Hh Hl Hu.
  assert (get_content_type ev = Raise no_content_type) as Hc.
  { unfold get_content_type, py_or. by rewrite Hh, Hl, Hu. }
  unfold lambda_handler. rewrite handler_try_eq, Hb, Hc.
  unfold logged, after. cbn [s3 calls log]. by rewrite <- app_assoc.
Qed.

Lemma missing_content_type_reported_witness :
  lambda_handler sample_env no_content_type_event empty_world
    = (failure_response no_content_type,
       after empty_world (s3 empty_world) []
         [ReceivedEvent; ProcessingError no_content_type]).
Proof.
  apply (missing_content_type_reported sample_env no_content_type_event
           empty_world (lit "images") {[ lit "accept" := lit "*/*" ]}).
  - reflexivity.
  - reflexivity.
  - vm_compute. reflexivity.
  - vm_compute. reflexivity.
Defined.

(** Lines 65-69: when the body cannot be decoded -- [b64decode] raises for
    a body flagged as base64, or the text holds a code point UTF-8 cannot
    encode -- the response carries the decoder's error; the extractor does
    not run and no service is called. *)
Theorem undecodable_body_reported
    (E : env) (ev : event) (w : world)
    (bucket_name content_type : str) (e : exn) :
  get_bucket_name E = Ok bucket_name →
  get_content_type ev = Ok content_type →
  get_body E ev = Raise e →
  lambda_handler E ev w
    = (failure_response e,
       after w (s3 w) [] [ReceivedEvent; ProcessingError e]).
Proof.
  intros Hb Hc Hd. unfold lambda_handler.
  rewrite handler_try_eq, Hb, Hc, Hd.
  unfold logged, after. cbn [s3 calls log]. by rewrite <- app_assoc.
Qed.

Lemma undecodable_body_reported_witness :
  let e := LibraryError (lit "Incorrect padding") in
  lambda_handler sample_env base64_event empty_world
    = (failure_response e,
       after empty_world (s3 empty_world) [] [ReceivedEvent; ProcessingError e]).
Proof.
  apply (undecodable_body_reported sample_env base64_event empty_world
           (lit "images") sample_header).
  - reflexivity.
  - vm_compute. reflexivity.
  - reflexivity.
Defined.

(** Line 65: an event without a [body] key is handled as one with the empty
    text body: the extractor finds no file and the handler answers with the
    NoFileFound failure, without calling a service. *)
Theorem missing_body_is_no_file
    (E : env) (ev : event) (w : world) (bucket_name content_type : str) :
  get_bucket_name E = Ok bucket_name →
  get_content_type ev = Ok content_type →
  ev_body ev = None →
  ev_isBase64Encoded ev = false →
  (lambda_handler E ev w).1 = failure_response no_file_found
  ∧ calls (lambda_handler E ev w).2 = calls w
  ∧ s3 (lambda_handler E ev w).2 = s3 w.
Proof.
  intros Hb Hc Hnone Hraw.
  assert (accepted E ev bucket_name content_type []) as Hacc.
  { split_and!; [done | done |]. unfold get_body. by rewrite Hnone, Hraw. }
  rewrite (lambda_handler_accepted _ _ _ _ _ _ Hacc).
  destruct (parse_multipart_form_data [] content_type) as [r es] eqn:Hp.
  destruct r as [r|].
  - exfalso.
    destruct (extracted_needs_markers [] content_type r) as [Hcd _];
      [by rewrite Hp |].
    revert Hcd. apply (bool_decide_unpack _). vm_compute. exact I.
  - unfold after. cbn [fst snd s3 calls]. by rewrite app_nil_r.
Qed.

Lemma missing_body_is_no_file_witness :
  (lambda_handler sample_env no_body_event empty_world).1
    = failure_response no_file_found
  ∧ calls (lambda_handler sample_env no_body_event empty_world).2
      = calls empty_world
  ∧ s3 (lambda_handler sample_env no_body_event empty_world).2
      = s3 empty_world.
Proof.
  apply (missing_body_is_no_file sample_env no_body_event empty_world
           (lit "images") sample_header).
  - reflexivity.
  - vm_compute. reflexivity.
  - reflexivity.
  - reflexivity.
Defined.

Lemma handler_try_Ok (E : env) (ev : event) (w w' : world) (r : response) :
  handler_try E ev w = (Ok r, w') →
  ∃ moderation_labels, r = success_response E moderation_labels.
Proof.
  rewrite handler_try_eq.
  destruct (get_bucket_name E) as [bucket|]; [| done].
  destruct (get_content_type ev) as [ct|]; [| done].
  destruct (get_body E ev) as [data|]; [| done].
  destruct (parse_multipart_form_data data ct) as [[[|b d]|] es]; try done.
  rewrite moderate_eq. cbv zeta.
  destruct (fault E (put_call E bucket (b :: d))); [done |].
  destruct (fault E (detect_call E bucket)); [done |].
  destruct (classifier E (b :: d) 70) as [mods|]; [| done].
  destruct (fault E (copy_call E bucket (flagged mods))); [done |].
  destruct (fault E (delete_call E bucket)); [done |].
  intros [= <- _]. by exists mods.
Qed.

(** Lines 122-151: every invocation answers with one of two shapes: the
    200 response with the four CORS headers and the placement summary, or
    the 500 response with two headers, the fixed message and the error
    that was logged last. *)
Theorem response_shapes (E : env) (ev : event) (w : world) :
  (∃ moderation_labels,
     (lambda_handler E ev w).1 = success_response E moderation_labels)
  ∨ (∃ e,
       (lambda_handler E ev w).1 = failure_response e
       ∧ last (log (lambda_handler E ev w).2) = Some (ProcessingError e)).
Proof.
  unfold lambda_handler.
  destruct (handler_try E ev w) as [[r|e] w'] eqn:Hrun.
  - left. by apply handler_try_Ok in Hrun.
  - right. exists e. split; [done |]. unfold logged. cbn [snd log].
    apply last_snoc.
Qed.

(** Lines 85-118: a run that answers 200 made exactly four service calls,
    all successful and in this order: the upload of the extracted bytes to
    [uploads/<id>] tagged [image/jpeg], the classification of that object
    with threshold 70, the copy to the final key, and the delete of the
    staged key -- all in the configured bucket. *)
Theorem successful_run_calls (E : env) (ev : event) (w : world) :
  statusCode (lambda_handler E ev w).1 = 200 →
  ∃ bucket_name content_type data payload moderation_labels,
    accepted E ev bucket_name content_type data
    ∧ (parse_multipart_form_data data content_type).1 = Some payload
    ∧ classifier E payload 70 = Ok moderation_labels
    ∧ calls (lambda_handler E ev w).2
        = calls w
            ++ [(PutObject bucket_name (staged_key E) payload
                   (lit "image/jpeg"), true);
                (DetectModerationLabels bucket_name (staged_key E) 70, true);
                (CopyObject bucket_name bucket_name (staged_key E)
                   (final_key_of E (flagged moderation_labels)), true);
                (DeleteObject bucket_name (staged_key E), true)].
Proof.
  destruct (lambda_handler_cases E ev w)
    as [(e & ls & Hrun)
       | (bucket & ct & data & b & d & es & Hacc & Hp & Hrun)];
    rewrite Hrun; [done |].
  rewrite moderate_eq. cbv zeta.
  destruct (fault E (put_call E bucket (b :: d))); [done |].
  destruct (fault E (detect_call E bucket)); [done |].
  destruct (classifier E (b :: d) 70) as [mods|] eqn:Hmods; [| done].
  destruct (fault E (copy_call E bucket (flagged mods))); [done |].
  destruct (fault E (delete_call E bucket)); [done |].
  intros _. exists bucket, ct, data, (b :: d), mods.
  split_and!; [done | by rewrite Hp | done |].
  unfold after. cbn [snd calls]. by rewrite app_nil_r.
Qed.

Lemma successful_run_calls_witness :
  let ev := text_event sample_header sample_text in
  let E := flagging_env in
  ∃ bucket_name content_type data payload moderation_labels,
    accepted E ev bucket_name content_type data
    ∧ (parse_multipart_form_data data content_type).1 = Some payload
    ∧ classifier E payload 70 = Ok moderation_labels
    ∧ calls (lambda_handler E ev empty_world).2
        = calls empty_world
            ++ [(PutObject bucket_name (staged_key E) payload
                   (lit "image/jpeg"), true);
                (DetectModerationLabels bucket_name (staged_key E) 70, true);
                (CopyObject bucket_name bucket_name (staged_key E)
                   (final_key_of E (flagged moderation_labels)), true);
                (DeleteObject bucket_name (staged_key E), true)].
Proof.
  apply (successful_run_calls flagging_env
           (text_event sample_header sample_text) empty_world).
  vm_compute. reflexivity.
Defined.

(** Lines 72-137: when the extractor returns a non-empty payload, no
    service call is refused and the classifier answers, the run ends with
    the 200 response built from the classifier's labels. *)
Theorem success_when_services_succeed
    (E : env) (ev : event) (w : world)
    (bucket_name content_type : str) (data payload : bytes)
    (moderation_labels : list moderation_label) :
  accepted E ev bucket_name content_type data →
  (parse_multipart_form_data data content_type).1 = Some payload →
  payload ≠ [] →
  (∀ c, fault E c = None) →
  classifier E payload 70 = Ok moderation_labels →
  (lambda_handler E ev w).1 = success_response E moderation_labels.
Proof.
  intros Hacc Hp Hne Hfault Hmods.
  rewrite (lambda_handler_accepted _ _ _ _ _ _ Hacc).
  destruct (parse_multipart_form_data data content_type) as [r es].
  simpl in Hp. subst r. destruct payload as [|b d]; [done |].
  rewrite moderate_eq. cbv zeta.
  rewrite (Hfault (put_call E bucket_name (b :: d))).
  rewrite (Hfault (detect_call E bucket_name)), Hmods.
  rewrite (Hfault (copy_call E bucket_name (flagged moderation_labels))).
  by rewrite (Hfault (delete_call E bucket_name)).
Qed.

Lemma success_when_services_succeed_witness :
  (lambda_handler sample_env (text_event sample_header sample_text)
     empty_world).1
    = success_response sample_env [].
Proof.
  apply (success_when_services_succeed sample_env
           (text_event sample_header sample_text) empty_world
           (lit "images") sample_header sample_body (blit "JPEGDATA") []).
  - split_and!; vm_compute; reflexivity.
  - vm_compute. reflexivity.
  - discriminate.
  - reflexivity.
  - reflexivity.
Defined.

Lemma unrelated_key_unchanged
    (E : env) (ev : event) (w : world) (k : str * str) :
  (∀ bucket_name,
     BUCKET_NAME E = Some bucket_name →
     (bucket_name, staged_key E) ≠ k
     ∧ ∀ nsfw, (bucket_name, final_key_of E nsfw) ≠ k) →
  s3 (lambda_handler E ev w).2 !! k = s3 w !! k.
Proof.
  intros Hother.
  destruct (lambda_handler_cases E ev w)
    as [(e & ls & Hrun)
       | (bucket_name & ct & data & b & d & es & Hacc & Hp & Hrun)];
    rewrite Hrun; [done |].
  destruct Hacc as (Hb & _ & _). apply get_bucket_name_Ok in Hb as [Hb _].
  destruct (Hother bucket_name Hb) as [Hst Hfin].
  rewrite moderate_eq. cbv zeta. unfold after, logged.
  destruct (fault E (put_call E bucket_name (b :: d))); [done |].
  destruct (fault E (detect_call E bucket_name)).
  { cbn [snd s3]. by rewrite lookup_insert_ne. }
  destruct (classifier E (b :: d) 70) as [mods|].
  2: { cbn [snd s3]. by rewrite lookup_insert_ne. }
  destruct (fault E (copy_call E bucket_name (flagged mods))).
  { cbn [snd s3]. by rewrite lookup_insert_ne. }
  destruct (fault E (delete_call E bucket_name)); cbn [snd s3].
  - by rewrite !lookup_insert_ne.
  - rewrite lookup_delete_ne by done. by rewrite !lookup_insert_ne.
Qed.

(** Lines 85-118: a run changes the bucket at its own staged key and its
    own two possible final keys only; every other object, and every object
    of another bucket, is as it was -- whether the run succeeds or fails. *)
Theorem other_keys_untouched
    (E : env) (ev : event) (w : world) (bucket key : str) :
  BUCKET_NAME E ≠ Some bucket
  ∨ (key ≠ staged_key E
     ∧ key ≠ final_key_of E true ∧ key ≠ final_key_of E false) →
  s3 (lambda_handler E ev w).2 !! (bucket, key) = s3 w !! (bucket, key).
Proof.
  intros Hother. apply unrelated_key_unchanged. intros bucket_name Hb. split.
  - intros [= -> <-]. destruct Hother as [? | (? & _)]; done.
  - intros nsfw [= -> <-].
    destruct Hother as [? | (_ & ? & ?)]; [done |]. by destruct nsfw.
Qed.

Lemma other_keys_untouched_witness :
  let ev := text_event sample_header sample_text in
  s3 (lambda_handler sample_env ev busy_world).2
    !! (lit "images", lit "safe/other.jpg")
  = s3 busy_world !! (lit "images", lit "safe/other.jpg").
Proof.
  apply (other_keys_untouched sample_env
           (text_event sample_header sample_text) busy_world
           (lit "images") (lit "safe/other.jpg")).
  right. split_and!; discriminate.
Defined.

(** Lines 85-90: when the upload is refused, it is the only service call
    of the run: nothing is classified, copied or deleted, the bucket is as
    it was, and the response carries the upload's error. *)
Theorem refused_upload_stops_run
    (E : env) (ev : event) (w : world)
    (bucket_name content_type : str) (data payload : bytes) (e : exn) :
  accepted E ev bucket_name content_type data →
  (parse_multipart_form_data data content_type).1 = Some payload →
  payload ≠ [] →
  fault E (put_call E bucket_name payload) = Some e →
  (lambda_handler E ev w).1 = failure_response e
  ∧ calls (lambda_handler E ev w).2
      = calls w ++ [(put_call E bucket_name payload, false)]
  ∧ s3 (lambda_handler E ev w).2 = s3 w.
Proof.
  intros Hacc Hp Hne Hput.
  rewrite (lambda_handler_accepted _ _ _ _ _ _ Hacc).
  destruct (parse_multipart_form_data data content_type) as [r es].
  simpl in Hp. subst r. destruct payload as [|b d]; [done |].
  rewrite moderate_eq. cbv zeta. rewrite Hput. unfold after, logged.
  cbn [fst snd s3 calls]. by rewrite app_nil_r.
Qed.

Lemma refused_upload_stops_run_witness :
  let ev := text_event sample_header sample_text in
  let E := put_failing_env in
  (lambda_handler E ev empty_world).1
    = failure_response (ClientError (lit "AccessDenied"))
  ∧ calls (lambda_handler E ev empty_world).2
      = calls empty_world
          ++ [(put_call E (lit "images") (blit "JPEGDATA"), false)]
  ∧ s3 (lambda_handler E ev empty_world).2 = s3 empty_world.
Proof.
  apply (refused_upload_stops_run put_failing_env
           (text_event sample_header sample_text) empty_world
           (lit "images") sample_header sample_body (blit "JPEGDATA")).
  - split_and!; vm_compute; reflexivity.
  - vm_compute. reflexivity.
  - discriminate.
  - reflexivity.
Defined.

Lemma own_keys_of_distinct_ids (E1 E2 : env) (n1 n2 : bool) :
  uuid4 E1 ≠ uuid4 E2 →
  staged_key E2 ≠ staged_key E1
  ∧ staged_key E2 ≠ final_key_of E1 n1
  ∧ final_key_of E2 n2 ≠ staged_key E1
  ∧ final_key_of E2 n2 ≠ final_key_of E1 n1.
Proof.
  intros Hne. unfold staged_key, final_key_of, image_id_of. split_and!.
  - intros Hk. apply app_inv_head, app_inv_tail in Hk. congruence.
  - intros Hk. destruct n1; vm_compute in Hk; discriminate Hk.
  - intros Hk. destruct n2; vm_compute in Hk; discriminate Hk.
  - intros Hk. destruct n1, n2;
      try (vm_compute in Hk; discriminate Hk);
      apply app_inv_head in Hk;
      apply (app_inv_head (lit "/")), app_inv_tail in Hk; congruence.
Qed.

(** Lines 78-81 and 108: the keys of a run are built from its generated
    identifier, so a run with another identifier leaves the staged object
    and the placed object of this one alone, whatever it does. *)
Theorem distinct_ids_do_not_interfere
    (E1 E2 : env) (ev : event) (w : world) (bucket : str) :
  uuid4 E1 ≠ uuid4 E2 →
  s3 (lambda_handler E2 ev w).2 !! (bucket, staged_key E1)
    = s3 w !! (bucket, staged_key E1)
  ∧ ∀ nsfw,
      s3 (lambda_handler E2 ev w).2 !! (bucket, final_key_of E1 nsfw)
        = s3 w !! (bucket, final_key_of E1 nsfw).
Proof.
  intros Hne. split; [| intros nsfw];
    apply unrelated_key_unchanged; intros bucket_name _;
    (split; [intros Hk | intros nsfw2 Hk]);
    apply pair_equal_spec in Hk as [_ Hk]; revert Hk.
  - by apply (own_keys_of_distinct_ids E1 E2 true true).
  - by apply (own_keys_of_distinct_ids E1 E2 true nsfw2).
  - by apply (own_keys_of_distinct_ids E1 E2 nsfw true).
  - by apply (own_keys_of_distinct_ids E1 E2 nsfw nsfw2).
Qed.

Lemma distinct_ids_do_not_interfere_witness :
  let ev := text_event sample_header sample_text in
  s3 (lambda_handler other_env ev busy_world).2
    !! (lit "images", staged_key sample_env)
    = s3 busy_world !! (lit "images", staged_key sample_env)
  ∧ ∀ nsfw,
      s3 (lambda_handler other_env ev busy_world).2
        !! (lit "images", final_key_of sample_env nsfw)
        = s3 busy_world !! (lit "images", final_key_of sample_env nsfw).
Proof.
  apply (distinct_ids_do_not_interfere sample_env other_env
           (text_event sample_header sample_text) busy_world (lit "images")).
  discriminate.
Defined.
